(** * mu_string: string views over caller-owned buffers

    A shallow embedding of [src/mu_string.c] (with the types and sentinels of
    [inc/mu_string.h]) and the properties of its view, search, slice, trim,
    split and append operations.

    Machine model.  The integer types are those of an LP64 target: [size_t]
    and [long long] are 64 bits wide, [int] is 32 bits wide.  A value of such
    a type is a [Z]; every conversion between them is written out as the
    reduction it performs ([to_size], [to_int], [to_llong]), signed
    conversions and signed arithmetic wrapping in two's complement.  Memory is
    a family of byte blocks; a pointer is [NULL] or a block with an offset. *)

From Stdlib Require Import ZArith List Bool Lia.
From Stdlib Require Import Strings.Byte.
From Stdlib Require Strings.String.
Import String.StringSyntax.
Delimit Scope string_scope with string.
Import ListNotations.
Local Open Scope Z_scope.

(* ------------------------------------------------------------------------- *)
(** ** Integer types *)

Definition SIZE_MAX : Z := 18446744073709551615.   (* 2^64 - 1 *)
Definition INT_MAX : Z := 2147483647.              (* 2^31 - 1 *)
Definition INT_MIN : Z := -2147483648.
Definition LLONG_MAX : Z := 9223372036854775807.   (* 2^63 - 1 *)

(** Conversion to [size_t]: reduction modulo 2^64. *)
Definition to_size (z : Z) : Z := z mod 18446744073709551616.

(** Conversion to [int]: the 32-bit two's complement value. *)
Definition to_int (z : Z) : Z := (z + 2147483648) mod 4294967296 - 2147483648.

(** Conversion to [long long]: the 64-bit two's complement value. *)
Definition to_llong (z : Z) : Z :=
  (z + 9223372036854775808) mod 18446744073709551616 - 9223372036854775808.

Definition size_add (a b : Z) : Z := to_size (a + b).
Definition size_sub (a b : Z) : Z := to_size (a - b).
Definition int_sub (a b : Z) : Z := to_int (a - b).
Definition llong_add (a b : Z) : Z := to_llong (a + b).

(** The values a variable of the type can hold. *)
Definition size_ok (n : Z) : Prop := 0 <= n <= SIZE_MAX.
Definition int_ok (i : Z) : Prop := INT_MIN <= i <= INT_MAX.

(* ------------------------------------------------------------------------- *)
(** ** Pointers and memory *)

Definition block := positive.
Bind Scope positive_scope with block.

Inductive ptr : Type :=
| NULL : ptr
| Ptr (b : block) (ofs : Z) : ptr.

Definition is_null (p : ptr) : bool :=
  match p with NULL => true | Ptr _ _ => false end.

(** [p + i].  Arithmetic on the null pointer leaves it null. *)
Definition ptr_add (p : ptr) (i : Z) : ptr :=
  match p with
  | NULL => NULL
  | Ptr b o => Ptr b (o + i)
  end.

Definition mem := block -> Z -> byte.

(** [*p]; only ever reached through a non-null pointer. *)
Definition load (m : mem) (p : ptr) : byte :=
  match p with
  | NULL => x00
  | Ptr b o => m b o
  end.

(** [p[i]] *)
Definition index (m : mem) (p : ptr) (i : Z) : byte := load m (ptr_add p i).

(** The value of a byte as an [unsigned char]. *)
Definition byte_val (b : byte) : Z := Z.of_N (Byte.to_N b).

(* ------------------------------------------------------------------------- *)
(** ** The loops of the source

    Every loop of the library walks an index over a range and stops at the
    first index that passes a test.  The fuel is the number of indices left in
    the range, so a loop never stops early for lack of it. *)

(** [for (i = i0; ...; ++i) if (c i) return i;] over [fuel] indices. *)
Fixpoint find_from (c : Z -> bool) (fuel : nat) (i : Z) : option Z :=
  match fuel with
  | O => None
  | S k => if c i then Some i else find_from c k (i + 1)
  end.

(** [for (size_t i = 0; i < n; ++i) if (c i) return i;] *)
Definition find_first (c : Z -> bool) (n : Z) : option Z :=
  find_from c (Z.to_nat n) 0.

(** [idx = n; for (i = 0; i < n; ++i) if (c i) { idx = i; break; }] *)
Definition first_index (c : Z -> bool) (n : Z) : Z :=
  match find_first c n with
  | Some i => i
  | None => n
  end.

(** [i = 0; while (i < n && c i) i++;] *)
Definition skip_while (c : Z -> bool) (n : Z) : Z :=
  first_index (fun i => negb (c i)) n.

(** [for (...; ...; --i) if (c i) return i;] over [fuel] indices, downwards. *)
Fixpoint rfind_from (c : Z -> bool) (fuel : nat) (i : Z) : option Z :=
  match fuel with
  | O => None
  | S k => if c i then Some i else rfind_from c k (i - 1)
  end.

(** [for (int i = i0; i >= 0; --i) if (c i) return i;] *)
Definition rfind_first (c : Z -> bool) (i0 : Z) : option Z :=
  rfind_from c (Z.to_nat (i0 + 1)) i0.

(** [while (c i) i--;] over at most [fuel] indices. *)
Fixpoint rskip_from (c : Z -> bool) (fuel : nat) (i : Z) : Z :=
  match fuel with
  | O => i
  | S k => if c i then rskip_from c k (i - 1) else i
  end.

(** [i = i0; while (i >= lo && c i) i--;]  After [i0 - lo + 1] steps the
    index is [lo - 1] and the bound test ends the loop.  (With [lo = INT_MIN]
    that index is not an [int]; the decrement that would produce it has no
    defined behaviour in C.) *)
Definition rskip_while (c : Z -> bool) (lo i0 : Z) : Z :=
  rskip_from c (Z.to_nat (i0 - lo + 1)) i0.

(* ------------------------------------------------------------------------- *)
(** ** <string.h> *)

(** [strlen]: index of the first NUL byte. *)
Definition strlen (m : mem) (p : ptr) : Z :=
  first_index (fun i => Byte.eqb (index m p i) x00) SIZE_MAX.

Fixpoint memcmp_from (m : mem) (p q : ptr) (fuel : nat) (i : Z) : Z :=
  match fuel with
  | O => 0
  | S k =>
      if Byte.eqb (index m p i) (index m q i)
      then memcmp_from m p q k (i + 1)
      else byte_val (index m p i) - byte_val (index m q i)
  end.

(** [memcmp]: the difference of the first pair of bytes that differ. *)
Definition memcmp (m : mem) (p q : ptr) (n : Z) : Z :=
  memcmp_from m p q (Z.to_nat n) 0.

(** [memcpy] of [n] bytes from [src] to [dst]: the bytes of the destination
    range take the values the source range had before the call. *)
Definition memcpy (m : mem) (dst src : ptr) (n : Z) : mem :=
  match dst with
  | NULL => m
  | Ptr db dofs =>
      fun b a =>
        if (Pos.eqb b db && (dofs <=? a) && (a <? dofs + n))%bool
        then index m src (a - dofs)
        else m b a
  end.

(* ------------------------------------------------------------------------- *)
(** ** Public types and definitions (mu_string.h) *)

Record mu_string_t : Type := { buf : ptr; len : Z }.

Record mu_string_mut_t : Type := { mut_buf : ptr; mut_len : Z }.

(** The empty string literal that [MU_STRING_EMPTY] points to. *)
Definition empty_literal : ptr := Ptr 1 0.

Definition MU_STRING_EMPTY : mu_string_t := {| buf := empty_literal; len := 0 |}.
Definition MU_STRING_MUT_EMPTY : mu_string_mut_t := {| mut_buf := NULL; mut_len := 0 |}.
Definition MU_STRING_NOT_FOUND : mu_string_t := {| buf := NULL; len := 0 |}.
Definition MU_STRING_INVALID : mu_string_t := {| buf := NULL; len := SIZE_MAX |}.
Definition MU_STRING_END : Z := INT_MAX.

(** A predicate takes a character and the caller's [void *arg]; [None] is the
    null function pointer. *)
Definition mu_string_pred_t : Type := option (byte -> ptr -> bool).

Definition pred_is_null (pred : mu_string_pred_t) : bool :=
  match pred with None => true | Some _ => false end.

(** [pred(ch, arg)]; only ever reached with a non-null [pred]. *)
Definition call (pred : mu_string_pred_t) (ch : byte) (arg : ptr) : bool :=
  match pred with
  | Some p => p ch arg
  | None => false
  end.

(* ------------------------------------------------------------------------- *)
(** ** Views *)

Definition mu_string_is_valid (s : mu_string_t) : bool :=
  negb (is_null (buf s)) || (len s =? 0).

Definition mu_string_from_cstr (m : mem) (cstr : ptr) : mu_string_t :=
  if is_null cstr then MU_STRING_EMPTY
  else {| buf := cstr; len := strlen m cstr |}.

Definition mu_string_from_buf (b : ptr) (n : Z) : mu_string_t :=
  if is_null b && (0 <? n) then MU_STRING_INVALID
  else if is_null b && (n =? 0) then MU_STRING_EMPTY
  else {| buf := b; len := n |}.

Definition mu_string_mut_from_buf (b : ptr) (n : Z) : mu_string_mut_t :=
  {| mut_buf := b; mut_len := n |}.

Definition mu_string_len (s : mu_string_t) : Z :=
  if negb (mu_string_is_valid s) then SIZE_MAX else len s.

Definition mu_string_is_empty (s : mu_string_t) : bool :=
  if negb (mu_string_is_valid s) then false else len s =? 0.

Definition mu_string_buf (s : mu_string_t) : ptr :=
  if negb (mu_string_is_valid s) || (len s =? 0) then NULL else buf s.

Definition mu_string_eq (m : mem) (s1 s2 : mu_string_t) : bool :=
  let s1_is_valid := mu_string_is_valid s1 in
  let s2_is_valid := mu_string_is_valid s2 in
  if negb s1_is_valid || negb s2_is_valid
  then Bool.eqb (negb s1_is_valid) (negb s2_is_valid)
  else if negb (len s1 =? len s2) then false
  else if len s1 =? 0 then true
  else memcmp m (buf s1) (buf s2) (len s1) =? 0.

Definition mu_string_mut_buf (s_mut : mu_string_mut_t) : ptr := mut_buf s_mut.

Definition mu_string_mut_len (s_mut : mu_string_mut_t) : Z := mut_len s_mut.

(** The result is an [int]: -1, 0, 1 or what [memcmp] answered. *)
Definition mu_string_cmp (m : mem) (s1 s2 : mu_string_t) : Z :=
  let s1_is_valid := mu_string_is_valid s1 in
  let s2_is_valid := mu_string_is_valid s2 in
  if negb s1_is_valid && negb s2_is_valid then 0
  else if negb s1_is_valid then -1
  else if negb s2_is_valid then 1
  else if (len s1 =? 0) && (len s2 =? 0) then 0
  else if len s1 =? 0 then -1
  else if len s2 =? 0 then 1
  else
    let min_len := if len s1 <? len s2 then len s1 else len s2 in
    let cmp_result := memcmp m (buf s1) (buf s2) min_len in
    if negb (cmp_result =? 0) then cmp_result
    else if len s1 <? len s2 then -1
    else if len s2 <? len s1 then 1
    else 0.

Definition mu_string_starts_with (m : mem) (s prefix : mu_string_t) : bool :=
  if negb (mu_string_is_valid s) || negb (mu_string_is_valid prefix) then false
  else if len prefix =? 0 then true
  else if len s <? len prefix then false
  else if len s =? 0 then false
  else memcmp m (buf s) (buf prefix) (len prefix) =? 0.

Definition mu_string_ends_with (m : mem) (s suffix : mu_string_t) : bool :=
  if negb (mu_string_is_valid s) || negb (mu_string_is_valid suffix) then false
  else if len suffix =? 0 then true
  else if len s <? len suffix then false
  else if len s =? 0 then false
  else memcmp m (ptr_add (ptr_add (buf s) (len s)) (- len suffix))
                (buf suffix) (len suffix) =? 0.

(* ------------------------------------------------------------------------- *)
(** ** Searching *)

Definition mu_string_find_char (m : mem) (s : mu_string_t) (c : byte)
  : mu_string_t :=
  if negb (mu_string_is_valid s) then MU_STRING_INVALID
  else if len s =? 0 then MU_STRING_EMPTY
  else
    match find_first (fun i => Byte.eqb (index m (buf s) i) c) (len s) with
    | Some i => {| buf := ptr_add (buf s) i; len := size_sub (len s) i |}
    | None => MU_STRING_EMPTY
    end.

Definition mu_string_rfind_char (m : mem) (s : mu_string_t) (c : byte)
  : mu_string_t :=
  if negb (mu_string_is_valid s) then MU_STRING_INVALID
  else if len s =? 0 then MU_STRING_EMPTY
  else
    match rfind_first (fun i => Byte.eqb (index m (buf s) i) c)
                      (int_sub (to_int (len s)) 1) with
    | Some i => {| buf := ptr_add (buf s) i; len := size_sub (len s) (to_size i) |}
    | None => MU_STRING_EMPTY
    end.

Definition mu_string_find_pred (m : mem) (s : mu_string_t)
    (pred : mu_string_pred_t) (arg : ptr) : mu_string_t :=
  if negb (mu_string_is_valid s) then MU_STRING_INVALID
  else if (len s =? 0) || pred_is_null pred then MU_STRING_EMPTY
  else
    match find_first (fun i => call pred (index m (buf s) i) arg) (len s) with
    | Some i => {| buf := ptr_add (buf s) i; len := size_sub (len s) i |}
    | None => MU_STRING_EMPTY
    end.

Definition mu_string_rfind_pred (m : mem) (s : mu_string_t)
    (pred : mu_string_pred_t) (arg : ptr) : mu_string_t :=
  if negb (mu_string_is_valid s) then MU_STRING_INVALID
  else if (len s =? 0) || pred_is_null pred then MU_STRING_EMPTY
  else
    match rfind_first (fun i => call pred (index m (buf s) i) arg)
                      (int_sub (to_int (len s)) 1) with
    | Some i => {| buf := ptr_add (buf s) i; len := size_sub (len s) (to_size i) |}
    | None => MU_STRING_EMPTY
    end.

Definition mu_string_find_first_not_pred (m : mem) (s : mu_string_t)
    (pred : mu_string_pred_t) (arg : ptr) : mu_string_t :=
  if negb (mu_string_is_valid s) then MU_STRING_INVALID
  else if len s =? 0 then MU_STRING_EMPTY
  else if pred_is_null pred then {| buf := buf s; len := len s |}
  else
    let start_idx :=
      skip_while (fun i => call pred (index m (buf s) i) arg) (len s) in
    if start_idx =? len s then MU_STRING_EMPTY
    else {| buf := ptr_add (buf s) start_idx; len := size_sub (len s) start_idx |}.

Definition mu_string_find_str (m : mem) (haystack needle : mu_string_t)
  : mu_string_t :=
  if negb (mu_string_is_valid haystack) || negb (mu_string_is_valid needle)
  then MU_STRING_INVALID
  else if len needle =? 0 then haystack
  else if len haystack <? len needle then MU_STRING_EMPTY
  else
    match find_first
            (fun i => memcmp m (ptr_add (buf haystack) i) (buf needle)
                             (len needle) =? 0)
            (size_sub (len haystack) (len needle) + 1) with
    | Some i =>
        {| buf := ptr_add (buf haystack) i; len := size_sub (len haystack) i |}
    | None => MU_STRING_EMPTY
    end.

(* ------------------------------------------------------------------------- *)
(** ** Slicing *)

(** The index adjustment [mu_string_slice] applies to [start] and to [end]:
    widen to [long long], add the length to a negative index and raise the
    sum to 0 if it is still negative, convert to [size_t], lower to the
    length [n]. *)
Definition clamp_index (n idx : Z) : Z :=
  let clamped_ll := to_llong idx in
  let clamped_ll :=
    if clamped_ll <? 0 then
      let sum := llong_add (to_llong n) clamped_ll in
      if sum <? 0 then 0 else sum
    else clamped_ll in
  let clamped := to_size clamped_ll in
  if n <? clamped then n else clamped.

Definition mu_string_slice (s : mu_string_t) (start end_ : Z) : mu_string_t :=
  if negb (mu_string_is_valid s) then MU_STRING_INVALID
  else if len s =? 0 then MU_STRING_EMPTY
  else
    let clamped_start := clamp_index (len s) start in
    let clamped_end := clamp_index (len s) end_ in
    if clamped_end <=? clamped_start then MU_STRING_EMPTY
    else {| buf := ptr_add (buf s) clamped_start;
            len := size_sub clamped_end clamped_start |}.

(* ------------------------------------------------------------------------- *)
(** ** Trimming *)

Definition mu_string_ltrim (m : mem) (s : mu_string_t)
    (pred : mu_string_pred_t) (arg : ptr) : mu_string_t :=
  if negb (mu_string_is_valid s) then MU_STRING_INVALID
  else if (len s =? 0) || pred_is_null pred then s
  else
    let start_idx :=
      skip_while (fun i => call pred (index m (buf s) i) arg) (len s) in
    if start_idx =? len s then MU_STRING_EMPTY
    else {| buf := ptr_add (buf s) start_idx; len := size_sub (len s) start_idx |}.

Definition mu_string_rtrim (m : mem) (s : mu_string_t)
    (pred : mu_string_pred_t) (arg : ptr) : mu_string_t :=
  if negb (mu_string_is_valid s) then MU_STRING_INVALID
  else if (len s =? 0) || pred_is_null pred then s
  else
    let end_idx :=
      rskip_while (fun i => call pred (index m (buf s) i) arg)
                  0 (int_sub (to_int (len s)) 1) in
    if end_idx <? 0 then MU_STRING_EMPTY
    else {| buf := buf s; len := size_add (to_size end_idx) 1 |}.

Definition mu_string_trim (m : mem) (s : mu_string_t)
    (pred : mu_string_pred_t) (arg : ptr) : mu_string_t :=
  if negb (mu_string_is_valid s) then MU_STRING_INVALID
  else if (len s =? 0) || pred_is_null pred then s
  else
    let start_idx :=
      skip_while (fun i => call pred (index m (buf s) i) arg) (len s) in
    if start_idx =? len s then MU_STRING_EMPTY
    else
      let end_idx :=
        rskip_while (fun i => call pred (index m (buf s) i) arg)
                    (to_int start_idx) (int_sub (to_int (len s)) 1) in
      {| buf := ptr_add (buf s) start_idx;
         len := size_add (size_sub (to_size end_idx) start_idx) 1 |}.

(* ------------------------------------------------------------------------- *)
(** ** Splitting

    The out-parameter [mu_string_t *after] is the view it points to, or
    [None] for a null pointer.  A split returns its result together with the
    view [after] points to when it returns. *)

Definition after_t : Type := option mu_string_t.

(** [if (after) *after = v;] *)
Definition set_after (after : after_t) (v : mu_string_t) : after_t :=
  match after with
  | Some _ => Some v
  | None => None
  end.

Definition mu_string_split_handle_result (s : mu_string_t) (after : after_t)
    (found_idx : Z) : mu_string_t * after_t :=
  if found_idx <? len s then
    let before := {| buf := buf s; len := found_idx |} in
    (before,
     set_after after {| buf := ptr_add (buf s) found_idx;
                        len := size_sub (len s) found_idx |})
  else
    (s, set_after after {| buf := ptr_add (buf s) (len s); len := 0 |}).

Definition mu_string_split_at_char (m : mem) (s : mu_string_t)
    (after : after_t) (delimiter : byte) : mu_string_t * after_t :=
  if negb (mu_string_is_valid s) then
    (MU_STRING_INVALID, set_after after MU_STRING_INVALID)
  else
    let found_idx :=
      first_index (fun i => Byte.eqb (index m (buf s) i) delimiter) (len s) in
    if negb (found_idx =? len s) then
      let before_part := {| buf := buf s; len := found_idx |} in
      (before_part,
       set_after after {| buf := ptr_add (buf s) found_idx;
                          len := size_sub (len s) found_idx |})
    else
      (s, set_after after MU_STRING_NOT_FOUND).

Definition mu_string_split_by_pred (m : mem) (s : mu_string_t)
    (after : after_t) (pred : mu_string_pred_t) (arg : ptr)
  : mu_string_t * after_t :=
  if negb (mu_string_is_valid s) || pred_is_null pred then
    (MU_STRING_INVALID, set_after after MU_STRING_INVALID)
  else
    let split_idx :=
      first_index (fun i => call pred (index m (buf s) i) arg) (len s) in
    if split_idx =? len s then
      (s, set_after after {| buf := ptr_add (buf s) (len s); len := 0 |})
    else mu_string_split_handle_result s after split_idx.

Definition mu_string_split_by_not_pred (m : mem) (s : mu_string_t)
    (after : after_t) (pred : mu_string_pred_t) (arg : ptr)
  : mu_string_t * after_t :=
  if negb (mu_string_is_valid s) || pred_is_null pred then
    (MU_STRING_INVALID, set_after after MU_STRING_INVALID)
  else
    let found_idx :=
      first_index (fun i => negb (call pred (index m (buf s) i) arg)) (len s) in
    mu_string_split_handle_result s after found_idx.

(* ------------------------------------------------------------------------- *)
(** ** Writing

    The two writers change the bytes of the destination buffer: they take the
    memory and return it with their result. *)

Definition mu_string_copy (m : mem) (dst : mu_string_mut_t) (src : mu_string_t)
  : mem * mu_string_t :=
  if is_null (mut_buf dst) || negb (mu_string_is_valid src) then
    (m, MU_STRING_INVALID)
  else
    let bytes_to_copy := if len src <? mut_len dst then len src else mut_len dst in
    let m' := if 0 <? bytes_to_copy
              then memcpy m (mut_buf dst) (buf src) bytes_to_copy else m in
    (m', {| buf := mut_buf dst; len := bytes_to_copy |}).

Definition mu_string_append (m : mem) (dst_segment : mu_string_mut_t)
    (src : mu_string_t) : mem * mu_string_mut_t :=
  if is_null (mut_buf dst_segment) || negb (mu_string_is_valid src) then
    (m, dst_segment)
  else if len src =? 0 then (m, dst_segment)
  else
    let bytes_to_copy :=
      if len src <? mut_len dst_segment then len src else mut_len dst_segment in
    let m' := if 0 <? bytes_to_copy
              then memcpy m (mut_buf dst_segment) (buf src) bytes_to_copy
              else m in
    (m', {| mut_buf := ptr_add (mut_buf dst_segment) bytes_to_copy;
            mut_len := size_sub (mut_len dst_segment) bytes_to_copy |}).

(* ------------------------------------------------------------------------- *)
(** ** Test fixtures: memories that hold string literals *)

Definition no_mem : mem := fun _ _ => x00.

(** The memory [m] with the bytes [bs], followed by NUL bytes, in block [b]. *)
Definition with_bytes (b : block) (bs : list byte) (m : mem) : mem :=
  fun b' a =>
    if Pos.eqb b' b
    then (if a <? 0 then x00 else nth (Z.to_nat a) bs x00)
    else m b' a.

Definition with_literal (b : block) (s : String.string) (m : mem) : mem :=
  with_bytes b (String.list_byte_of_string s) m.

(** The view [MU_STR_LITERAL(s)] of the tests, for a literal placed in block [b]. *)
Definition MU_STR_LITERAL (b : block) (s : String.string) : mu_string_t :=
  {| buf := Ptr b 0; len := Z.of_nat (String.length s) |}.

Arguments with_literal b%_positive s%_string m.
Arguments MU_STR_LITERAL b%_positive s%_string.

(** The helper predicates of test_mu_string.c. *)
Definition is_whitespace_pred : byte -> ptr -> bool :=
  fun ch _ => Byte.eqb ch " " || Byte.eqb ch x09 || Byte.eqb ch x0a || Byte.eqb ch x0d.

Definition is_digit_pred : byte -> ptr -> bool :=
  fun ch _ => (byte_val "0" <=? byte_val ch) && (byte_val ch <=? byte_val "9").

Definition is_dot_pred : byte -> ptr -> bool :=
  fun ch _ => Byte.eqb ch ".".

(** The literals of test_mu_string.c used below, one block each; block 2 is
    the zeroed [mutable_buffer]. *)
Definition test_mem : mem :=
  with_literal 10 "key=value"
    (with_literal 11 "key"
       (with_literal 12 "=value"
          (with_literal 13 "abcdefgh"
             (with_literal 14 "cdef"
                (with_literal 15 "  hello world   "
                   (with_literal 16 "hello world"
                      (with_literal 17 "...abc..."
                         (with_literal 18 "abc"
                            (with_literal 19 "too_long"
                               (with_literal 20 "orld" no_mem)))))))))).

(* ------------------------------------------------------------------------- *)
(** ** Vocabulary of the specification *)

(** The part [[a, b)] of the view [s]. *)
Definition subrange (s : mu_string_t) (a b : Z) : mu_string_t :=
  {| buf := ptr_add (buf s) a; len := b - a |}.

(** The index normalisation in the words of the specification: a negative
    index counts from the end ([idx' = len + idx]), and the result is clamped
    into [[0, len]]. *)
Definition spec_normalize_index (L idx : Z) : Z :=
  let idx' := if idx <? 0 then L + idx else idx in
  Z.max 0 (Z.min L idx').

(** The slice in the words of the specification. *)
Definition spec_slice (s : mu_string_t) (start end_ : Z) : mu_string_t :=
  let start' := spec_normalize_index (len s) start in
  let end' := spec_normalize_index (len s) end_ in
  if end' <=? start' then MU_STRING_EMPTY else subrange s start' end'.

(** The bytes of [needle] occur in [haystack] from index [i] on. *)
Definition occurs_at (m : mem) (haystack needle : mu_string_t) (i : Z) : Prop :=
  forall j, 0 <= j < len needle ->
    index m (buf haystack) (i + j) = index m (buf needle) j.

(** The [n] bytes at [p]. *)
Definition read_bytes (m : mem) (p : ptr) (n : nat) : list byte :=
  map (fun i => index m p (Z.of_nat i)) (seq 0 n).

(** The bytes a view describes. *)
Definition view_bytes (m : mem) (v : mu_string_t) : list byte :=
  read_bytes m (buf v) (Z.to_nat (len v)).

Definition total_len (vs : list mu_string_t) : Z :=
  fold_right (fun v acc => len v + acc) 0 vs.

(** The cursor pattern: each append continues in the segment the previous
    one returned. *)
Definition append_all (m : mem) (segment : mu_string_mut_t)
    (vs : list mu_string_t) : mem * mu_string_mut_t :=
  fold_left (fun st v => mu_string_append (fst st) (snd st) v) vs (m, segment).

(** The view [v] shares no byte with the [cap] bytes at offset [ofs] of block
    [b]: [memcpy] requires this of its source and destination. *)
Definition apart_from (b : block) (ofs cap : Z) (v : mu_string_t) : bool :=
  match buf v with
  | NULL => true
  | Ptr vb vofs =>
      (len v =? 0) || negb (Pos.eqb vb b) || (vofs + len v <=? ofs) || (ofs + cap <=? vofs)
  end.

(** A memory whose block 2 holds [k] spaces from offset 0 and the letter x
    at every offset after them: the content of views too long for an [int]. *)
Definition spaces_then_x (k : Z) : mem :=
  fun b a => if Pos.eqb b 2 && (a <? k) then " "%byte else "x"%byte.

(* ------------------------------------------------------------------------- *)
(** * Properties *)

(** ** Integer conversions *)

(** Linear arithmetic over the bounds of the integer types. *)
Ltac size_lia :=
  unfold size_ok, int_ok, SIZE_MAX, INT_MAX, INT_MIN, LLONG_MAX in *; lia.

Lemma to_size_small n : size_ok n -> to_size n = n.
Proof. unfold size_ok, SIZE_MAX, to_size. intros H. apply Z.mod_small. lia. Qed.

Lemma to_int_small i : int_ok i -> to_int i = i.
Proof.
  unfold int_ok, INT_MIN, INT_MAX, to_int. intros H.
  rewrite Z.mod_small by lia. lia.
Qed.

Lemma to_llong_small i : - 9223372036854775808 <= i <= LLONG_MAX -> to_llong i = i.
Proof.
  unfold LLONG_MAX, to_llong. intros H. rewrite Z.mod_small by lia. lia.
Qed.

Lemma to_int_range z : int_ok (to_int z).
Proof.
  unfold int_ok, INT_MIN, INT_MAX, to_int.
  pose proof (Z.mod_pos_bound (z + 2147483648) 4294967296 ltac:(lia)). lia.
Qed.

(** A non-negative [int] obtained from a non-negative number is no larger
    than that number: truncation only ever removes high bits. *)
Lemma to_int_le z : 0 <= z -> to_int z <= z.
Proof.
  intros Hz. unfold to_int.
  pose proof (Z.mod_le (z + 2147483648) 4294967296 ltac:(lia) ltac:(lia)). lia.
Qed.

(** ** Pointers *)

Lemma ptr_add_0 p : ptr_add p 0 = p.
Proof. destruct p; simpl; [reflexivity | now rewrite Z.add_0_r]. Qed.

Lemma ptr_add_add p i j : ptr_add (ptr_add p i) j = ptr_add p (i + j).
Proof. destruct p; simpl; [reflexivity | now rewrite Z.add_assoc]. Qed.

Lemma index_add m p i j : index m (ptr_add p i) j = index m p (i + j).
Proof. unfold index. now rewrite ptr_add_add. Qed.

Lemma valid_nonnull s : buf s <> NULL -> mu_string_is_valid s = true.
Proof. unfold mu_string_is_valid. destruct (buf s); simpl; congruence. Qed.

Lemma valid_cases s :
  mu_string_is_valid s = true -> buf s <> NULL \/ len s = 0.
Proof.
  unfold mu_string_is_valid. destruct (buf s); simpl.
  - intros H%Z.eqb_eq. now right.
  - intros _. left. discriminate.
Qed.

(** ** The loops *)

Lemma find_from_Some c fuel : forall i j,
  find_from c fuel i = Some j ->
  i <= j < i + Z.of_nat fuel /\ c j = true /\ (forall k, i <= k < j -> c k = false).
Proof.
  induction fuel as [|fuel IH]; intros i j; simpl; [discriminate|].
  destruct (c i) eqn:Hc.
  - intros [= <-]. repeat split; auto; try lia; intros k Hk; lia.
  - intros H. apply IH in H. destruct H as (Hr & Hj & Hmin).
    repeat split; try lia; auto.
    intros k Hk. destruct (Z.eq_dec k i) as [->|Hne]; auto. apply Hmin. lia.
Qed.

Lemma find_from_None c fuel : forall i,
  find_from c fuel i = None ->
  forall k, i <= k < i + Z.of_nat fuel -> c k = false.
Proof.
  induction fuel as [|fuel IH]; intros i; simpl.
  - intros _ k Hk. lia.
  - destruct (c i) eqn:Hc; [discriminate|]. intros H k Hk.
    destruct (Z.eq_dec k i) as [->|Hne]; auto. apply (IH _ H). lia.
Qed.

Lemma find_first_Some c n j :
  find_first c n = Some j ->
  0 <= j < n /\ c j = true /\ (forall k, 0 <= k < j -> c k = false).
Proof.
  unfold find_first. intros H. apply find_from_Some in H.
  destruct H as (Hr & Hj & Hmin). repeat split; auto; lia.
Qed.

Lemma find_first_None c n :
  find_first c n = None -> forall k, 0 <= k < n -> c k = false.
Proof.
  unfold find_first. intros H k Hk. apply (find_from_None _ _ _ H). lia.
Qed.

(** The loop finds the least index that passes the test. *)
Lemma find_first_least c n j :
  0 <= j < n -> c j = true -> (forall k, 0 <= k < j -> c k = false) ->
  find_first c n = Some j.
Proof.
  intros Hj Hc Hmin. destruct (find_first c n) as [j'|] eqn:E.
  - apply find_first_Some in E. destruct E as (Hr & Hc' & Hmin').
    f_equal. destruct (Z.lt_trichotomy j' j) as [Hlt|[->|Hgt]]; auto.
    + rewrite Hmin in Hc' by lia. discriminate.
    + rewrite Hmin' in Hc by lia. discriminate.
  - rewrite (find_first_None _ _ E j Hj) in Hc. discriminate.
Qed.

Lemma find_first_none c n :
  (forall k, 0 <= k < n -> c k = false) -> find_first c n = None.
Proof.
  intros H. destruct (find_first c n) as [j|] eqn:E; auto.
  apply find_first_Some in E. destruct E as (Hr & Hc & _).
  rewrite H in Hc by lia. discriminate.
Qed.

Lemma first_index_none c n :
  (forall k, 0 <= k < n -> c k = false) -> first_index c n = n.
Proof. intros H. unfold first_index. now rewrite find_first_none. Qed.

Lemma first_index_least c n j :
  0 <= j < n -> c j = true -> (forall k, 0 <= k < j -> c k = false) ->
  first_index c n = j.
Proof.
  intros Hj Hc Hmin. unfold first_index. now rewrite (find_first_least c n j).
Qed.

Lemma first_index_range c n : 0 <= n -> 0 <= first_index c n <= n.
Proof.
  intros Hn. unfold first_index. destruct (find_first c n) eqn:E; [|lia].
  apply find_first_Some in E. lia.
Qed.

Lemma first_index_found c n :
  first_index c n <> n -> 0 <= first_index c n < n /\ c (first_index c n) = true.
Proof.
  unfold first_index. destruct (find_first c n) eqn:E; [|congruence].
  apply find_first_Some in E. intros _. tauto.
Qed.

Lemma first_index_before c n k :
  0 <= k < first_index c n -> c k = false.
Proof.
  unfold first_index. destruct (find_first c n) eqn:E.
  - apply find_first_Some in E. intros Hk. now apply E.
  - intros Hk. now apply (find_first_None _ _ E).
Qed.

Lemma rfind_from_Some c fuel : forall i j,
  rfind_from c fuel i = Some j ->
  i - Z.of_nat fuel < j <= i /\ c j = true /\ (forall k, j < k <= i -> c k = false).
Proof.
  induction fuel as [|fuel IH]; intros i j; simpl; [discriminate|].
  destruct (c i) eqn:Hc.
  - intros [= <-]. repeat split; auto; try lia; intros k Hk; lia.
  - intros H. apply IH in H. destruct H as (Hr & Hj & Hmin).
    repeat split; try lia; auto.
    intros k Hk. destruct (Z.eq_dec k i) as [->|Hne]; auto. apply Hmin. lia.
Qed.

Lemma rfind_from_None c fuel : forall i,
  rfind_from c fuel i = None ->
  forall k, i - Z.of_nat fuel < k <= i -> c k = false.
Proof.
  induction fuel as [|fuel IH]; intros i; simpl.
  - intros _ k Hk. lia.
  - destruct (c i) eqn:Hc; [discriminate|]. intros H k Hk.
    destruct (Z.eq_dec k i) as [->|Hne]; auto. apply (IH _ H). lia.
Qed.

(** The downward loop only reports an index of its range [[0, i0]]. *)
Lemma rfind_first_Some c i0 j :
  rfind_first c i0 = Some j -> 0 <= j <= i0 /\ c j = true.
Proof.
  unfold rfind_first. intros H. apply rfind_from_Some in H.
  destruct H as (Hr & Hc & _). split; auto. lia.
Qed.

Lemma rfind_first_none c i0 :
  (forall k, 0 <= k <= i0 -> c k = false) -> rfind_first c i0 = None.
Proof.
  intros H. destruct (rfind_first c i0) as [j|] eqn:E; auto.
  apply rfind_first_Some in E. destruct E as (Hr & Hc).
  rewrite H in Hc by lia. discriminate.
Qed.

Lemma rskip_from_spec c fuel : forall i,
  let r := rskip_from c fuel i in
  i - Z.of_nat fuel <= r <= i /\
  (forall k, r < k <= i -> c k = true) /\
  (i - Z.of_nat fuel < r -> c r = false).
Proof.
  induction fuel as [|fuel IH]; intros i; simpl.
  - repeat split; try lia; intros k Hk; lia.
  - destruct (c i) eqn:Hc.
    + specialize (IH (i - 1)). simpl in IH. destruct IH as (Hr & Hall & Hstop).
      repeat split; try lia.
      * intros k Hk. destruct (Z.eq_dec k i) as [->|Hne]; auto. apply Hall. lia.
      * intros Hlt. apply Hstop. lia.
    + repeat split; auto; try lia; intros k Hk; lia.
Qed.

(** A loop whose test fails at once leaves the index where it was. *)
Lemma rskip_from_stop c fuel i : c i = false -> rskip_from c fuel i = i.
Proof. intros Hc. destruct fuel; simpl; [reflexivity | now rewrite Hc]. Qed.

Lemma rskip_while_below c lo i0 : i0 < lo -> rskip_while c lo i0 = i0.
Proof.
  intros H. unfold rskip_while.
  replace (Z.to_nat (i0 - lo + 1)) with O by lia. reflexivity.
Qed.

Lemma rskip_while_stop c lo i0 : c i0 = false -> rskip_while c lo i0 = i0.
Proof. intros H. unfold rskip_while. now apply rskip_from_stop. Qed.

Lemma rskip_while_spec c lo i0 :
  lo <= i0 + 1 ->
  let r := rskip_while c lo i0 in
  lo - 1 <= r <= i0 /\
  (forall k, r < k <= i0 -> c k = true) /\
  (lo <= r -> c r = false).
Proof.
  intros Hlo. unfold rskip_while.
  pose proof (rskip_from_spec c (Z.to_nat (i0 - lo + 1)) i0) as H. simpl in H.
  rewrite Z2Nat.id in H by lia. destruct H as (Hr & Hall & Hstop).
  repeat split; try lia; auto. intros Hle. apply Hstop. lia.
Qed.

Lemma eqb_neq (x y : byte) : x <> y -> Byte.eqb x y = false.
Proof.
  intros H. destruct (Byte.eqb x y) eqn:E; auto.
  apply Byte.byte_dec_bl in E. contradiction.
Qed.

(* ------------------------------------------------------------------------- *)
(** ** Validity and construction *)

(** C2, as amended: [mu_string_is_valid] returns false exactly for the views
    with a null buffer and a length other than 0.  The Invalid sentinel
    (null, SIZE_MAX) is one of them. *)
Theorem C2_is_valid_false_iff (v : mu_string_t) :
  (mu_string_is_valid v = false <-> (buf v = NULL /\ len v <> 0)) /\
  mu_string_is_valid MU_STRING_INVALID = false.
Proof.
  split; [|reflexivity].
  unfold mu_string_is_valid. destruct v as [[|b o] n]; simpl.
  - destruct (Z.eqb_spec n 0); intuition (try discriminate; try congruence).
  - intuition discriminate.
Qed.

(** C2 as stated fails: the view with a null buffer and length 5 is not valid
    and is not the Invalid sentinel. *)
Lemma C2_invalid_beyond_sentinel :
  mu_string_is_valid {| buf := NULL; len := 5 |} = false /\
  {| buf := NULL; len := 5 |} <> MU_STRING_INVALID.
Proof. split; [reflexivity | discriminate]. Qed.

(** C10: [mu_string_from_cstr] of a null pointer is the canonical Empty view,
    valid, of length 0 and with a non-null buffer, and not the Invalid
    sentinel; [mu_string_from_buf] of a null pointer with a positive length
    is Invalid. *)
Theorem C10_from_cstr_null (m : mem) :
  mu_string_from_cstr m NULL = MU_STRING_EMPTY /\
  mu_string_is_valid (mu_string_from_cstr m NULL) = true /\
  len (mu_string_from_cstr m NULL) = 0 /\
  buf (mu_string_from_cstr m NULL) <> NULL /\
  mu_string_from_cstr m NULL <> MU_STRING_INVALID /\
  (forall n, 0 < n -> mu_string_from_buf NULL n = MU_STRING_INVALID /\
                      mu_string_is_valid (mu_string_from_buf NULL n) = false).
Proof.
  repeat split; try reflexivity; try discriminate.
  - unfold mu_string_from_buf. simpl.
    destruct (Z.ltb_spec 0 n); [reflexivity | lia].
  - unfold mu_string_from_buf. simpl.
    destruct (Z.ltb_spec 0 n); [reflexivity | lia].
Qed.

Lemma C10_from_cstr_null_witness :
  mu_string_from_cstr no_mem NULL = MU_STRING_EMPTY /\
  mu_string_from_buf NULL 5 = MU_STRING_INVALID.
Proof.
  destruct (C10_from_cstr_null no_mem) as (H1 & _ & _ & _ & _ & H6).
  split; [exact H1 | apply (H6 5); lia].
Defined.

(* ------------------------------------------------------------------------- *)
(** ** Splitting *)

(** When the delimiter is absent, [mu_string_split_at_char] hands back the
    whole subject; only [after] receives the NotFound sentinel. *)
Lemma split_at_char_absent m s after c :
  mu_string_is_valid s = true ->
  (forall i, 0 <= i < len s -> index m (buf s) i <> c) ->
  mu_string_split_at_char m s after c = (s, set_after after MU_STRING_NOT_FOUND).
Proof.
  intros Hv Habs. unfold mu_string_split_at_char. rewrite Hv. simpl.
  rewrite first_index_none.
  - now rewrite Z.eqb_refl.
  - intros k Hk. apply eqb_neq. now apply Habs.
Qed.

(** When every byte satisfies the predicate, [mu_string_split_by_not_pred]
    hands back the whole subject and an empty view at its end. *)
Lemma split_by_not_pred_all_match m s after p arg :
  mu_string_is_valid s = true ->
  (forall i, 0 <= i < len s -> p (index m (buf s) i) arg = true) ->
  mu_string_split_by_not_pred m s after (Some p) arg =
    (s, set_after after {| buf := ptr_add (buf s) (len s); len := 0 |}).
Proof.
  intros Hv Hall. unfold mu_string_split_by_not_pred. rewrite Hv. simpl.
  rewrite first_index_none.
  - unfold mu_string_split_handle_result. now rewrite Z.ltb_irrefl.
  - intros k Hk. now rewrite Hall.
Qed.

(** C1 does not hold of the code.  For the twelve bytes of the test's
    subject, which hold no '=', [mu_string_split_at_char] returns the subject
    itself, a view that [mu_string_eq] tells apart from the NotFound
    sentinel; [after] does receive NotFound, and is left alone when null.
    For a subject of digits only, [mu_string_split_by_not_pred] with the
    digit predicate returns the subject and writes an empty view at its end
    into [after]. *)
Theorem C1_not_found_returns_subject :
  let m := with_literal 2 "no delimiter" (with_literal 3 "123456" no_mem) in
  let s := MU_STR_LITERAL 2 "no delimiter" in
  let d := MU_STR_LITERAL 3 "123456" in
  mu_string_is_valid s = true /\
  mu_string_split_at_char m s (Some MU_STRING_EMPTY) "=" =
    (s, Some MU_STRING_NOT_FOUND) /\
  mu_string_split_at_char m s None "=" = (s, None) /\
  s <> MU_STRING_NOT_FOUND /\
  mu_string_eq m MU_STRING_NOT_FOUND s = false /\
  mu_string_is_valid d = true /\
  mu_string_split_by_not_pred m d (Some MU_STRING_EMPTY) (Some is_digit_pred) NULL =
    (d, Some {| buf := Ptr 3 6; len := 0 |}) /\
  d <> MU_STRING_NOT_FOUND /\
  mu_string_eq m MU_STRING_NOT_FOUND d = false /\
  {| buf := Ptr 3 6; len := 0 |} <> MU_STRING_NOT_FOUND.
Proof.
  cbv zeta. repeat split; try reflexivity; try discriminate.
Qed.

(** C4, as amended: for a valid subject no byte of which satisfies the
    predicate, [mu_string_split_by_pred] returns the whole subject and, when
    [after] is non-null, writes into it the empty view at the end of the
    subject ([buf = s.buf + s.len], [len = 0]).  That view is valid and of
    length 0, and it differs from the NotFound sentinel whenever the buffer
    of the subject is non-null. *)
Theorem C4_split_by_pred_no_match m s after p arg :
  mu_string_is_valid s = true ->
  (forall i, 0 <= i < len s -> p (index m (buf s) i) arg = false) ->
  let r := mu_string_split_by_pred m s after (Some p) arg in
  let e := {| buf := ptr_add (buf s) (len s); len := 0 |} in
  fst r = s /\
  snd r = set_after after e /\
  (after = None -> snd r = None) /\
  (forall old, after = Some old -> snd r = Some e) /\
  mu_string_is_valid e = true /\
  (buf s <> NULL -> e <> MU_STRING_NOT_FOUND).
Proof.
  intros Hv Hnone r e.
  assert (Hr : r = (s, set_after after e)).
  { unfold r, mu_string_split_by_pred. rewrite Hv. simpl.
    rewrite first_index_none by exact Hnone. now rewrite Z.eqb_refl. }
  rewrite Hr. simpl. repeat split.
  - intros ->. reflexivity.
  - intros old ->. reflexivity.
  - unfold mu_string_is_valid. simpl. apply orb_true_r.
  - intros Hb. unfold e, MU_STRING_NOT_FOUND. destruct (buf s); [contradiction|].
    simpl. discriminate.
Qed.

Lemma C4_split_by_pred_no_match_witness :
  mu_string_split_by_pred (with_literal 2 "abcdef" no_mem)
    (MU_STR_LITERAL 2 "abcdef") (Some MU_STRING_EMPTY) (Some is_digit_pred) NULL =
  (MU_STR_LITERAL 2 "abcdef", Some {| buf := Ptr 2 6; len := 0 |}).
Proof.
  pose proof (C4_split_by_pred_no_match (with_literal 2 "abcdef" no_mem)
                (MU_STR_LITERAL 2 "abcdef") (Some MU_STRING_EMPTY)
                is_digit_pred NULL eq_refl) as H.
  assert (Hnone : forall i, 0 <= i < len (MU_STR_LITERAL 2 "abcdef") ->
            is_digit_pred
              (index (with_literal 2 "abcdef" no_mem)
                     (buf (MU_STR_LITERAL 2 "abcdef")) i) NULL = false).
  { intros i Hi. simpl in Hi.
    assert (Hc : i = 0 \/ i = 1 \/ i = 2 \/ i = 3 \/ i = 4 \/ i = 5) by lia.
    destruct Hc as [->|[->|[->|[->|[->| ->]]]]]; reflexivity. }
  destruct (H Hnone) as (H1 & H2 & _).
  rewrite (surjective_pairing (mu_string_split_by_pred _ _ _ _ _)).
  rewrite H1, H2. reflexivity.
Defined.

(** C4 as stated fails for the valid empty view with a null buffer: what
    [after] receives there is the NotFound sentinel. *)
Lemma C4_null_subject_yields_not_found :
  mu_string_is_valid MU_STRING_NOT_FOUND = true /\
  (forall i, 0 <= i < len MU_STRING_NOT_FOUND ->
     is_digit_pred (index no_mem (buf MU_STRING_NOT_FOUND) i) NULL = false) /\
  snd (mu_string_split_by_pred no_mem MU_STRING_NOT_FOUND (Some MU_STRING_EMPTY)
         (Some is_digit_pred) NULL) = Some MU_STRING_NOT_FOUND.
Proof.
  split; [reflexivity|]. split; [|reflexivity].
  intros i Hi. simpl in Hi. lia.
Qed.

(* ------------------------------------------------------------------------- *)
(** ** Writing *)

Lemma memcpy_inside m b ofs src n i :
  0 <= i < n -> memcpy m (Ptr b ofs) src n b (ofs + i) = index m src i.
Proof.
  intros Hi. unfold memcpy. rewrite Pos.eqb_refl. simpl.
  destruct (Z.leb_spec ofs (ofs + i)); [|lia].
  destruct (Z.ltb_spec (ofs + i) (ofs + n)); [|lia].
  simpl. f_equal. lia.
Qed.

Lemma memcpy_outside m b ofs src n b' a :
  ~ (b' = b /\ ofs <= a < ofs + n) -> memcpy m (Ptr b ofs) src n b' a = m b' a.
Proof.
  intros Hout. unfold memcpy.
  destruct (Pos.eqb_spec b' b); simpl; auto.
  destruct (Z.leb_spec ofs a); simpl; auto.
  destruct (Z.ltb_spec a (ofs + n)); simpl; auto.
  exfalso. apply Hout. split; auto.
Qed.

(** One append into a segment with a non-null buffer that is large enough. *)
Lemma append_fits m b ofs cap v :
  size_ok cap -> mu_string_is_valid v = true -> 0 <= len v <= cap ->
  let r := mu_string_append m {| mut_buf := Ptr b ofs; mut_len := cap |} v in
  snd r = {| mut_buf := Ptr b (ofs + len v); mut_len := cap - len v |} /\
  (forall i, 0 <= i < len v -> fst r b (ofs + i) = index m (buf v) i) /\
  (forall b' a, ~ (b' = b /\ ofs <= a < ofs + len v) -> fst r b' a = m b' a).
Proof.
  intros Hcap Hv Hlen. unfold mu_string_append. simpl. rewrite Hv. simpl.
  destruct (Z.eqb_spec (len v) 0) as [E|E]; simpl.
  - rewrite E, Z.add_0_r, Z.sub_0_r. repeat split; auto. intros i Hi. lia.
  - assert (Hn : (if len v <? cap then len v else cap) = len v).
    { destruct (Z.ltb_spec (len v) cap); lia. }
    rewrite Hn. destruct (Z.ltb_spec 0 (len v)); [|lia]. simpl.
    unfold size_sub. rewrite to_size_small by (unfold size_ok in *; lia).
    repeat split.
    + intros i Hi. now apply memcpy_inside.
    + intros b' a Hout. now apply memcpy_outside.
Qed.

(** C5: an append of a valid, non-empty source into a segment with a
    non-null buffer writes the first [min(src.len, segment.len)] bytes of the
    source at the start of the segment, changes no other byte, and returns
    the segment advanced by that count; when the capacity is the smaller, the
    data is cut to it and the result is the exhausted segment.  With a null
    segment buffer, or an invalid or empty source, the segment is returned as
    it was and memory is untouched. *)
Theorem C5_append m segment src :
  size_ok (mut_len segment) -> size_ok (len src) ->
  let written := Z.min (len src) (mut_len segment) in
  let r := mu_string_append m segment src in
  (mut_buf segment <> NULL -> mu_string_is_valid src = true -> len src <> 0 ->
     snd r = {| mut_buf := ptr_add (mut_buf segment) written;
                mut_len := mut_len segment - written |} /\
     (forall i, 0 <= i < written ->
        index (fst r) (mut_buf segment) i = index m (buf src) i) /\
     (forall b a,
        (forall i, 0 <= i < written -> ptr_add (mut_buf segment) i <> Ptr b a) ->
        fst r b a = m b a) /\
     (mut_len segment < len src -> mut_len (snd r) = 0)) /\
  (mut_buf segment = NULL \/ mu_string_is_valid src = false \/ len src = 0 ->
     r = (m, segment)).
Proof.
  intros Hcap Hlen written r. split.
  - intros Hbuf Hv Hne. unfold r, mu_string_append.
    destruct segment as [[|b ofs] cap]; [contradiction|]. simpl in *.
    rewrite Hv. simpl. destruct (Z.eqb_spec (len src) 0); [contradiction|].
    assert (Hn : (if len src <? cap then len src else cap) = written).
    { unfold written. destruct (Z.ltb_spec (len src) cap); lia. }
    rewrite Hn. unfold size_sub.
    rewrite to_size_small by (unfold size_ok, written in *; lia).
    simpl. repeat split.
    + intros i Hi. destruct (Z.ltb_spec 0 written); [|lia].
      unfold index at 1. simpl. now apply memcpy_inside.
    + intros b' a Hout. destruct (Z.ltb_spec 0 written); auto.
      apply memcpy_outside. intros [-> Ha].
      apply (Hout (a - ofs)); [lia|]. f_equal. lia.
    + unfold written. lia.
  - intros H. unfold r, mu_string_append.
    destruct H as [H|[H|H]].
    + rewrite H. reflexivity.
    + rewrite H. simpl. now rewrite orb_true_r.
    + destruct (is_null (mut_buf segment) || negb (mu_string_is_valid src)); auto.
      rewrite H. reflexivity.
Qed.

Lemma C5_append_witness :
  snd (mu_string_append (with_literal 3 "a_very_long_string" no_mem)
         {| mut_buf := Ptr 2 0; mut_len := 10 |}
         (MU_STR_LITERAL 3 "a_very_long_string"))
  = {| mut_buf := Ptr 2 10; mut_len := 0 |}.
Proof.
  pose proof (C5_append (with_literal 3 "a_very_long_string" no_mem)
                {| mut_buf := Ptr 2 0; mut_len := 10 |}
                (MU_STR_LITERAL 3 "a_very_long_string")) as H.
  simpl in H. unfold size_ok, SIZE_MAX in H.
  destruct (H ltac:(lia) ltac:(lia)) as (H1 & _).
  destruct (H1 ltac:(discriminate) eq_refl ltac:(lia)) as (H2 & _).
  exact H2.
Defined.

Lemma read_bytes_ext m m' p p' n :
  (forall i, 0 <= i < Z.of_nat n -> index m p i = index m' p' i) ->
  read_bytes m p n = read_bytes m' p' n.
Proof.
  intros H. unfold read_bytes. apply map_ext_in.
  intros i Hi%in_seq. apply H. lia.
Qed.

Lemma read_bytes_app m p n1 n2 :
  read_bytes m p (n1 + n2) =
  read_bytes m p n1 ++ read_bytes m (ptr_add p (Z.of_nat n1)) n2.
Proof.
  unfold read_bytes. rewrite seq_app, map_app. f_equal.
  simpl. rewrite <- (Nat.add_0_r n1) at 1. generalize 0%nat as k.
  induction n2 as [|n2 IH]; intros k; simpl; [reflexivity|].
  rewrite index_add. f_equal.
  - f_equal. lia.
  - rewrite <- IH. f_equal. f_equal. lia.
Qed.

Section AppendChain.

(** The destination: [cap] bytes from offset [ofs] of block [b]. *)
Variable b : block.

Lemma apart_from_rest ofs cap n v :
  0 <= n -> 0 <= len v ->
  apart_from b ofs cap v = true -> apart_from b (ofs + n) (cap - n) v = true.
Proof.
  intros Hn Hl. unfold apart_from. destruct (buf v) as [|vb vofs]; auto.
  rewrite !orb_true_iff, !Z.leb_le. intros [[[H|H]|H]|H]; auto.
  - left. right. lia.
  - right. lia.
Qed.

(** Bytes of a view that is apart from the destination are not changed by
    a write inside the destination. *)
Lemma view_bytes_frame m m' ofs cap v :
  0 <= len v ->
  apart_from b ofs cap v = true ->
  (forall b' a, ~ (b' = b /\ ofs <= a < ofs + cap) -> m' b' a = m b' a) ->
  view_bytes m' v = view_bytes m v.
Proof.
  intros Hl Hv Hframe. unfold view_bytes. apply read_bytes_ext.
  intros i Hi. rewrite Z2Nat.id in Hi by lia. unfold index, apart_from in *.
  destruct (buf v) as [|vb vofs]; simpl; auto.
  apply Hframe. intros [-> Ha].
  rewrite !orb_true_iff, !Z.leb_le, Z.eqb_eq, negb_true_iff in Hv.
  destruct Hv as [[[H|H]|H]|H]; try lia.
  rewrite Pos.eqb_refl in H. discriminate.
Qed.

Lemma total_len_nonneg vs :
  Forall (fun v => mu_string_is_valid v = true /\ 0 <= len v) vs ->
  0 <= total_len vs.
Proof.
  induction 1 as [|v vs [_ Hv] _ IH]; simpl; lia.
Qed.

Lemma append_all_fits vs : forall m ofs cap,
  size_ok cap ->
  Forall (fun v => mu_string_is_valid v = true /\ 0 <= len v) vs ->
  Forall (fun v => apart_from b ofs cap v = true) vs ->
  total_len vs <= cap ->
  let r := append_all m {| mut_buf := Ptr b ofs; mut_len := cap |} vs in
  snd r = {| mut_buf := Ptr b (ofs + total_len vs);
             mut_len := cap - total_len vs |} /\
  read_bytes (fst r) (Ptr b ofs) (Z.to_nat (total_len vs)) =
    concat (map (view_bytes m) vs) /\
  (forall b' a, ~ (b' = b /\ ofs <= a < ofs + total_len vs) ->
                fst r b' a = m b' a).
Proof.
  induction vs as [|v vs IH]; intros m ofs cap Hcap Hvalid Hapart Htotal.
  - simpl. rewrite Z.add_0_r, Z.sub_0_r. repeat split; auto.
  - inversion Hvalid as [|? ? [Hv Hl] Hvalid']; subst.
    inversion Hapart as [|? ? Ha Hapart']; subst.
    pose proof (total_len_nonneg vs Hvalid') as Hrest.
    simpl in Htotal.
    destruct (append_fits m b ofs cap v Hcap Hv ltac:(lia))
      as (Hseg & Hin & Hout).
    unfold append_all. simpl fold_left.
    destruct (mu_string_append m {| mut_buf := Ptr b ofs; mut_len := cap |} v)
      as [m1 seg1] eqn:E1.
    simpl in Hseg, Hin, Hout. subst seg1.
    specialize (IH m1 (ofs + len v) (cap - len v)).
    destruct IH as (IHseg & IHbytes & IHframe).
    { unfold size_ok in *. lia. }
    { exact Hvalid'. }
    { rewrite Forall_forall in *. intros w Hw.
      apply apart_from_rest; auto; try lia. now apply Hvalid'. }
    { lia. }
    fold (append_all m1 {| mut_buf := Ptr b (ofs + len v);
                           mut_len := cap - len v |} vs).
    set (r := append_all m1 _ vs) in *.
    simpl total_len. repeat split.
    + rewrite IHseg. f_equal; [f_equal|]; lia.
    + rewrite Z2Nat.inj_add by lia. rewrite read_bytes_app.
      simpl concat. f_equal.
      * unfold view_bytes. apply read_bytes_ext. intros i Hi.
        rewrite Z2Nat.id in Hi by lia. unfold index at 1. simpl.
        rewrite IHframe by lia. now apply Hin.
      * simpl ptr_add. rewrite Z2Nat.id by lia. rewrite IHbytes.
        f_equal. apply map_ext_in. intros w Hw.
        rewrite Forall_forall in Hvalid', Hapart'.
        apply (view_bytes_frame m m1 ofs cap); auto.
        -- now apply Hvalid'.
        -- intros b' a Hna. apply Hout. intros [-> Hr]. apply Hna. split; auto. lia.
    + intros b' a Hna. rewrite IHframe by (intros [-> Hr]; apply Hna; split; auto; lia).
      apply Hout. intros [-> Hr]. apply Hna. split; auto. lia.
Qed.

End AppendChain.

(** C6: chaining appends of valid views over a buffer of capacity [cap], none
    of the views sharing a byte with the buffer and their total length [N]
    being at most [cap], leaves the concatenation of the views in the first
    [N] bytes of the buffer, changes no other byte, and ends with the segment
    that starts [N] bytes into the buffer and has [cap - N] bytes left. *)
Theorem C6_append_chain m b ofs cap vs :
  size_ok cap ->
  Forall (fun v => mu_string_is_valid v = true /\ 0 <= len v) vs ->
  Forall (fun v => apart_from b ofs cap v = true) vs ->
  total_len vs <= cap ->
  let r := append_all m {| mut_buf := Ptr b ofs; mut_len := cap |} vs in
  snd r = {| mut_buf := Ptr b (ofs + total_len vs);
             mut_len := cap - total_len vs |} /\
  read_bytes (fst r) (Ptr b ofs) (Z.to_nat (total_len vs)) =
    concat (map (view_bytes m) vs) /\
  (forall b' a, ~ (b' = b /\ ofs <= a < ofs + total_len vs) ->
                fst r b' a = m b' a).
Proof. intros. now apply append_all_fits. Qed.

Lemma C6_append_chain_witness :
  let m := with_literal 3 "hello" (with_literal 4 " world" (with_literal 5 "!" no_mem)) in
  let vs := [MU_STR_LITERAL 3 "hello"; MU_STR_LITERAL 4 " world"; MU_STR_LITERAL 5 "!"] in
  let r := append_all m {| mut_buf := Ptr 2 0; mut_len := 100 |} vs in
  snd r = {| mut_buf := Ptr 2 12; mut_len := 88 |} /\
  read_bytes (fst r) (Ptr 2 0) 12 = String.list_byte_of_string "hello world!".
Proof.
  intros m vs r.
  assert (Hcap : size_ok 100) by (unfold size_ok, SIZE_MAX; lia).
  assert (Hvalid : Forall (fun v => mu_string_is_valid v = true /\ 0 <= len v) vs).
  { repeat constructor; simpl; lia. }
  assert (Hapart : Forall (fun v => apart_from 2 0 100 v = true) vs).
  { repeat constructor. }
  assert (Htotal : total_len vs <= 100) by (simpl; lia).
  destruct (C6_append_chain m 2 0 100 vs Hcap Hvalid Hapart Htotal) as (Hseg & Hbytes & _).
  split; [exact Hseg | exact Hbytes].
Defined.

(* ------------------------------------------------------------------------- *)
(** ** Searching *)

Lemma byte_val_inj x y : byte_val x = byte_val y -> x = y.
Proof.
  unfold byte_val. intros H%N2Z.inj.
  pose proof (Byte.of_to_N x) as Hx. rewrite H, Byte.of_to_N in Hx. congruence.
Qed.

Lemma memcmp_from_zero_iff m p q fuel : forall i,
  memcmp_from m p q fuel i = 0 <->
  (forall k, i <= k < i + Z.of_nat fuel -> index m p k = index m q k).
Proof.
  induction fuel as [|fuel IH]; intros i; simpl.
  - split; auto. intros _ k Hk. lia.
  - destruct (Byte.eqb (index m p i) (index m q i)) eqn:E.
    + apply Byte.byte_dec_bl in E. rewrite IH. split; intros H k Hk.
      * destruct (Z.eq_dec k i) as [->|Hne]; auto. apply H. lia.
      * apply H. lia.
    + apply Byte.eqb_false in E. split.
      * intros H. exfalso. apply E. apply byte_val_inj. lia.
      * intros H. exfalso. apply E. apply H. lia.
Qed.

Lemma memcmp_zero_iff m p q n :
  0 <= n ->
  (memcmp m p q n = 0 <-> (forall j, 0 <= j < n -> index m p j = index m q j)).
Proof.
  intros Hn. unfold memcmp. rewrite memcmp_from_zero_iff.
  rewrite Z2Nat.id by lia. reflexivity.
Qed.

(** The test of the substring loop is the occurrence of the needle. *)
Lemma memcmp_occurs m h n i :
  0 <= len n ->
  ((memcmp m (ptr_add (buf h) i) (buf n) (len n) =? 0) = true <-> occurs_at m h n i).
Proof.
  intros Hn. rewrite Z.eqb_eq, memcmp_zero_iff by exact Hn. unfold occurs_at.
  split; intros H j Hj; specialize (H j Hj); now rewrite index_add in *.
Qed.

(** C7: for a valid haystack and a valid needle, [mu_string_find_str]
    returns the haystack itself when the needle is empty and the Empty view
    when the needle is the longer of the two; otherwise it returns the part
    of the haystack from the first index at which the bytes of the needle
    occur up to the end of the haystack, or the Empty view when they occur at
    no index. *)
Theorem C7_find_str m haystack needle :
  mu_string_is_valid haystack = true -> mu_string_is_valid needle = true ->
  size_ok (len haystack) -> size_ok (len needle) ->
  (len needle = 0 -> mu_string_find_str m haystack needle = haystack) /\
  (len haystack < len needle ->
     mu_string_find_str m haystack needle = MU_STRING_EMPTY) /\
  (0 < len needle <= len haystack ->
     (forall i, 0 <= i <= len haystack - len needle ->
        occurs_at m haystack needle i ->
        (forall k, 0 <= k < i -> ~ occurs_at m haystack needle k) ->
        mu_string_find_str m haystack needle =
          {| buf := ptr_add (buf haystack) i; len := len haystack - i |}) /\
     ((forall i, 0 <= i <= len haystack - len needle ->
         ~ occurs_at m haystack needle i) ->
      mu_string_find_str m haystack needle = MU_STRING_EMPTY)).
Proof.
  intros Hvh Hvn Hh Hn. unfold mu_string_find_str. rewrite Hvh, Hvn. simpl.
  unfold size_ok in *. split; [|split].
  - intros ->. reflexivity.
  - intros Hlt. destruct (Z.eqb_spec (len needle) 0); [lia|].
    destruct (Z.ltb_spec (len haystack) (len needle)); [reflexivity | lia].
  - intros Hrange. destruct (Z.eqb_spec (len needle) 0); [lia|].
    destruct (Z.ltb_spec (len haystack) (len needle)); [lia|].
    assert (Hsub : size_sub (len haystack) (len needle) = len haystack - len needle).
    { unfold size_sub. apply to_size_small. size_lia. }
    rewrite Hsub. split.
    + intros i Hi Hocc Hfirst.
      rewrite (find_first_least _ _ i).
      * unfold size_sub. now rewrite to_size_small by size_lia.
      * lia.
      * apply memcmp_occurs; [lia | exact Hocc].
      * intros k Hk.
        destruct (memcmp m (ptr_add (buf haystack) k) (buf needle) (len needle) =? 0)
          eqn:E; auto.
        apply memcmp_occurs in E; [|lia]. exfalso. now apply (Hfirst k).
    + intros Hnone. rewrite find_first_none; auto.
      intros k Hk.
      destruct (memcmp m (ptr_add (buf haystack) k) (buf needle) (len needle) =? 0)
        eqn:E; auto.
      apply memcmp_occurs in E; [|lia]. exfalso. apply (Hnone k); auto. lia.
Qed.

(** A property of the first [n] indices holds of any index in range. *)
Lemma Z_range_ind (P : Z -> Prop) (n : nat) :
  (forall i, (i < n)%nat -> P (Z.of_nat i)) ->
  forall k, 0 <= k < Z.of_nat n -> P k.
Proof.
  intros H k Hk. rewrite <- (Z2Nat.id k) by lia. apply H. lia.
Qed.

(** Case analysis on an index [k] known to lie in [[0, n)]. *)
Ltac each_nat i Hi :=
  lazymatch type of Hi with
  | (_ < O)%nat => exfalso; inversion Hi
  | (_ < S _)%nat =>
      destruct i as [|i];
      [clear Hi | apply Nat.succ_lt_mono in Hi; each_nat i Hi]
  end.

Ltac each_index k n :=
  pattern k; apply (Z_range_ind _ n); [|assumption || lia];
  let i := fresh "i" in let Hi := fresh "Hi" in
  intros i Hi; each_nat i Hi.

Lemma C7_find_str_witness :
  mu_string_find_str
    (with_literal 4 "hello world world" (with_literal 5 "world" no_mem))
    (MU_STR_LITERAL 4 "hello world world") (MU_STR_LITERAL 5 "world")
  = {| buf := Ptr 4 6; len := 11 |}.
Proof.
  set (m := with_literal 4 "hello world world" (with_literal 5 "world" no_mem)).
  set (h := MU_STR_LITERAL 4 "hello world world").
  set (n := MU_STR_LITERAL 5 "world").
  assert (Hh : size_ok (len h)) by (unfold size_ok, SIZE_MAX; simpl; lia).
  assert (Hn : size_ok (len n)) by (unfold size_ok, SIZE_MAX; simpl; lia).
  destruct (C7_find_str m h n eq_refl eq_refl Hh Hn) as (_ & _ & H3).
  destruct (H3 ltac:(simpl; lia)) as (Hfound & _).
  apply (Hfound 6).
  - simpl. lia.
  - intros j Hj. simpl in Hj. each_index j 5%nat; reflexivity.
  - intros k Hk Hocc. specialize (Hocc 0 ltac:(simpl; lia)). revert Hocc.
    each_index k 6%nat; discriminate.
Defined.

(** The downward loops start at [(int)len - 1].  Whatever the truncation to
    [int] does to the length, the start index lies below the length. *)
Lemma int_start_below n : 1 <= n -> int_sub (to_int n) 1 < n.
Proof.
  intros Hn. unfold int_sub.
  assert (E : to_int (to_int n - 1) = to_int (n - 1)).
  { unfold to_int.
    replace ((n + 2147483648) mod 4294967296 - 2147483648 - 1 + 2147483648)
      with ((n + 2147483648) mod 4294967296 - 1) by lia.
    rewrite Zminus_mod_idemp_l. do 2 f_equal. lia. }
  rewrite E. pose proof (to_int_le (n - 1)). lia.
Qed.

Section Search.

Variable m : mem.
Variable s : mu_string_t.

(** Every search answers Invalid for a subject that is not valid. *)
Lemma search_invalid c pred arg needle :
  mu_string_is_valid s = false ->
  mu_string_find_char m s c = MU_STRING_INVALID /\
  mu_string_rfind_char m s c = MU_STRING_INVALID /\
  mu_string_find_pred m s pred arg = MU_STRING_INVALID /\
  mu_string_rfind_pred m s pred arg = MU_STRING_INVALID /\
  mu_string_find_first_not_pred m s pred arg = MU_STRING_INVALID /\
  mu_string_find_str m s needle = MU_STRING_INVALID.
Proof.
  intros Hv.
  unfold mu_string_find_char, mu_string_rfind_char, mu_string_find_pred,
    mu_string_rfind_pred, mu_string_find_first_not_pred, mu_string_find_str.
  rewrite Hv. simpl. auto 10.
Qed.

Hypothesis Hvalid : mu_string_is_valid s = true.

Lemma search_empty c pred arg :
  len s = 0 ->
  mu_string_find_char m s c = MU_STRING_EMPTY /\
  mu_string_rfind_char m s c = MU_STRING_EMPTY /\
  mu_string_find_pred m s pred arg = MU_STRING_EMPTY /\
  mu_string_rfind_pred m s pred arg = MU_STRING_EMPTY /\
  mu_string_find_first_not_pred m s pred arg = MU_STRING_EMPTY.
Proof.
  intros Hl.
  unfold mu_string_find_char, mu_string_rfind_char, mu_string_find_pred,
    mu_string_rfind_pred, mu_string_find_first_not_pred.
  rewrite Hvalid, Hl. simpl. auto 10.
Qed.

Lemma find_str_empty_subject needle :
  len s = 0 -> mu_string_is_valid needle = true -> size_ok (len needle) ->
  mu_string_find_str m s needle =
    if len needle =? 0 then s else MU_STRING_EMPTY.
Proof.
  intros Hl Hvn Hn. unfold mu_string_find_str. rewrite Hvalid, Hvn, Hl. simpl.
  destruct (Z.eqb_spec (len needle) 0); auto.
  destruct (Z.ltb_spec 0 (len needle)); auto. size_lia.
Qed.

Hypothesis Hlen : 0 <= len s.

(** A forward loop that finds nothing. *)
Lemma find_loop_none (c : byte -> bool) :
  (forall i, 0 <= i < len s -> c (index m (buf s) i) = false) ->
  find_first (fun i => c (index m (buf s) i)) (len s) = None.
Proof. intros H. now apply find_first_none. Qed.

(** A downward loop that finds nothing. *)
Lemma rfind_loop_none (c : byte -> bool) :
  (forall i, 0 <= i < len s -> c (index m (buf s) i) = false) ->
  rfind_first (fun i => c (index m (buf s) i)) (int_sub (to_int (len s)) 1) = None.
Proof.
  intros H. apply rfind_first_none. intros k Hk. apply H.
  destruct (Z.eq_dec (len s) 0) as [E|E].
  - rewrite E in Hk. change (int_sub (to_int 0) 1) with (-1) in Hk. lia.
  - pose proof (int_start_below (len s)). lia.
Qed.

Lemma search_char_absent c :
  (forall i, 0 <= i < len s -> index m (buf s) i <> c) ->
  mu_string_find_char m s c = MU_STRING_EMPTY /\
  mu_string_rfind_char m s c = MU_STRING_EMPTY.
Proof.
  intros Habs.
  assert (H : forall i, 0 <= i < len s ->
              (fun x => Byte.eqb x c) (index m (buf s) i) = false).
  { intros i Hi. apply eqb_neq. now apply Habs. }
  unfold mu_string_find_char, mu_string_rfind_char. rewrite Hvalid. simpl.
  destruct (len s =? 0); auto.
  rewrite (find_loop_none (fun x => Byte.eqb x c) H).
  rewrite (rfind_loop_none (fun x => Byte.eqb x c) H). auto.
Qed.

Lemma search_pred_never pred arg :
  (forall i, 0 <= i < len s -> call pred (index m (buf s) i) arg = false) ->
  mu_string_find_pred m s pred arg = MU_STRING_EMPTY /\
  mu_string_rfind_pred m s pred arg = MU_STRING_EMPTY.
Proof.
  intros H.
  unfold mu_string_find_pred, mu_string_rfind_pred. rewrite Hvalid. simpl.
  destruct ((len s =? 0) || pred_is_null pred); auto.
  rewrite (find_loop_none (fun x => call pred x arg) H).
  rewrite (rfind_loop_none (fun x => call pred x arg) H). auto.
Qed.

Lemma search_not_pred_always pred arg :
  pred_is_null pred = false ->
  (forall i, 0 <= i < len s -> call pred (index m (buf s) i) arg = true) ->
  mu_string_find_first_not_pred m s pred arg = MU_STRING_EMPTY.
Proof.
  intros Hp H. unfold mu_string_find_first_not_pred. rewrite Hvalid, Hp. simpl.
  destruct (len s =? 0); auto.
  unfold skip_while. rewrite first_index_none.
  - now rewrite Z.eqb_refl.
  - intros k Hk. now rewrite H.
Qed.

Lemma search_str_absent needle :
  mu_string_is_valid needle = true -> size_ok (len needle) -> len needle <> 0 ->
  (forall i, 0 <= i <= len s - len needle -> ~ occurs_at m s needle i) ->
  mu_string_find_str m s needle = MU_STRING_EMPTY.
Proof.
  intros Hvn Hn Hne Habs. unfold mu_string_find_str.
  rewrite Hvalid, Hvn. simpl.
  destruct (Z.eqb_spec (len needle) 0); [contradiction|].
  destruct (Z.ltb_spec (len s) (len needle)); auto.
  rewrite find_first_none; auto. intros k Hk.
  assert (Hsub : size_sub (len s) (len needle) <= len s - len needle).
  { unfold size_sub, to_size.
    apply Z.mod_le; unfold size_ok in *; lia. }
  destruct (memcmp m (ptr_add (buf s) k) (buf needle) (len needle) =? 0) eqn:E; auto.
  apply memcmp_occurs in E; [|unfold size_ok in *; lia].
  exfalso. apply (Habs k); auto. lia.
Qed.

End Search.

(** C8, as amended: every search answers Invalid for a subject that is not
    valid.  For a valid subject of length 0, and for a valid subject in which
    nothing matches, the character and predicate searches answer the
    canonical Empty view, which is not the NotFound sentinel; so does
    [mu_string_find_str] for a valid needle that is not empty.  For an empty
    needle [mu_string_find_str] answers the haystack itself, whatever its
    buffer is. *)
Theorem C8_search_results m s c pred arg needle :
  size_ok (len s) ->
  (mu_string_is_valid s = false ->
     mu_string_find_char m s c = MU_STRING_INVALID /\
     mu_string_rfind_char m s c = MU_STRING_INVALID /\
     mu_string_find_pred m s pred arg = MU_STRING_INVALID /\
     mu_string_rfind_pred m s pred arg = MU_STRING_INVALID /\
     mu_string_find_first_not_pred m s pred arg = MU_STRING_INVALID /\
     mu_string_find_str m s needle = MU_STRING_INVALID) /\
  (mu_string_is_valid s = true -> len s = 0 ->
     mu_string_find_char m s c = MU_STRING_EMPTY /\
     mu_string_rfind_char m s c = MU_STRING_EMPTY /\
     mu_string_find_pred m s pred arg = MU_STRING_EMPTY /\
     mu_string_rfind_pred m s pred arg = MU_STRING_EMPTY /\
     mu_string_find_first_not_pred m s pred arg = MU_STRING_EMPTY /\
     (mu_string_is_valid needle = true -> size_ok (len needle) ->
        (len needle <> 0 -> mu_string_find_str m s needle = MU_STRING_EMPTY) /\
        (len needle = 0 -> mu_string_find_str m s needle = s))) /\
  (mu_string_is_valid s = true ->
     ((forall i, 0 <= i < len s -> index m (buf s) i <> c) ->
        mu_string_find_char m s c = MU_STRING_EMPTY /\
        mu_string_rfind_char m s c = MU_STRING_EMPTY) /\
     ((forall i, 0 <= i < len s -> call pred (index m (buf s) i) arg = false) ->
        mu_string_find_pred m s pred arg = MU_STRING_EMPTY /\
        mu_string_rfind_pred m s pred arg = MU_STRING_EMPTY) /\
     (pred_is_null pred = false ->
      (forall i, 0 <= i < len s -> call pred (index m (buf s) i) arg = true) ->
        mu_string_find_first_not_pred m s pred arg = MU_STRING_EMPTY) /\
     (mu_string_is_valid needle = true -> size_ok (len needle) ->
      len needle <> 0 ->
      (forall i, 0 <= i <= len s - len needle -> ~ occurs_at m s needle i) ->
        mu_string_find_str m s needle = MU_STRING_EMPTY)) /\
  MU_STRING_EMPTY <> MU_STRING_NOT_FOUND /\
  MU_STRING_INVALID <> MU_STRING_NOT_FOUND.
Proof.
  intros Hs. split; [|split; [|split; [|split]]]; try discriminate.
  - apply search_invalid.
  - intros Hv Hl.
    destruct (search_empty m s Hv c pred arg Hl) as (H1 & H2 & H3 & H4 & H5).
    repeat (split; [assumption|]).
    intros Hvn Hn. rewrite (find_str_empty_subject m s Hv needle Hl Hvn Hn).
    split; intros H.
    + destruct (Z.eqb_spec (len needle) 0); [contradiction | reflexivity].
    + rewrite H. reflexivity.
  - intros Hv. destruct Hs as [Hs _]. repeat split.
    + now apply search_char_absent.
    + now apply search_char_absent.
    + now apply search_pred_never.
    + now apply search_pred_never.
    + now apply search_not_pred_always.
    + now apply search_str_absent.
Qed.

(** C8 as stated fails: the empty needle is found in the valid empty
    haystack with a null buffer, and what [mu_string_find_str] answers there
    is the haystack, whose fields are those of the NotFound sentinel. *)
Lemma C8_find_str_answers_not_found :
  mu_string_is_valid MU_STRING_NOT_FOUND = true /\
  len MU_STRING_NOT_FOUND = 0 /\
  mu_string_is_valid MU_STRING_EMPTY = true /\
  mu_string_find_str no_mem MU_STRING_NOT_FOUND MU_STRING_EMPTY = MU_STRING_NOT_FOUND /\
  mu_string_find_str no_mem MU_STRING_NOT_FOUND MU_STRING_EMPTY <> MU_STRING_EMPTY.
Proof. repeat split. discriminate. Qed.

Lemma C8_search_results_witness :
  let m := with_literal 2 "hello" (with_literal 3 "xyz" no_mem) in
  let s := MU_STR_LITERAL 2 "hello" in
  mu_string_find_char m s "z" = MU_STRING_EMPTY /\
  mu_string_rfind_char m s "z" = MU_STRING_EMPTY /\
  mu_string_find_pred m s (Some is_digit_pred) NULL = MU_STRING_EMPTY /\
  mu_string_rfind_pred m s (Some is_digit_pred) NULL = MU_STRING_EMPTY /\
  mu_string_find_str m s (MU_STR_LITERAL 3 "xyz") = MU_STRING_EMPTY.
Proof.
  intros m s.
  assert (Hs : size_ok (len s)) by (unfold size_ok, SIZE_MAX; simpl; lia).
  assert (Hn : size_ok (len (MU_STR_LITERAL 3 "xyz")))
    by (unfold size_ok, SIZE_MAX; simpl; lia).
  destruct (C8_search_results m s "z" (Some is_digit_pred) NULL
              (MU_STR_LITERAL 3 "xyz") Hs) as (_ & _ & H & _).
  destruct (H eq_refl) as (Hchar & Hpred & _ & Hstr).
  assert (Habs : forall i, 0 <= i < len s -> index m (buf s) i <> "z"%byte).
  { intros i Hi. simpl in Hi. each_index i 5%nat; discriminate. }
  assert (Hnever : forall i, 0 <= i < len s ->
            call (Some is_digit_pred) (index m (buf s) i) NULL = false).
  { intros i Hi. simpl in Hi. each_index i 5%nat; reflexivity. }
  destruct (Hchar Habs) as [H1 H2]. destruct (Hpred Hnever) as [H3 H4].
  split; [exact H1|]. split; [exact H2|]. split; [exact H3|]. split; [exact H4|].
  apply (Hstr eq_refl Hn).
  - discriminate.
  - intros i Hi Hocc. simpl in Hi. specialize (Hocc 0 ltac:(simpl; lia)).
    revert Hocc. each_index i 3%nat; discriminate.
Defined.

(* ------------------------------------------------------------------------- *)
(** ** Slicing *)

(** For a length that fits a [long long], the adjustment of an [int] index in
    the code is the normalisation of the specification. *)
Lemma clamp_index_spec L idx :
  0 <= L <= LLONG_MAX -> int_ok idx ->
  clamp_index L idx = spec_normalize_index L idx.
Proof.
  intros HL Hi. unfold clamp_index, spec_normalize_index, llong_add.
  rewrite (to_llong_small idx) by size_lia.
  rewrite (to_llong_small L) by size_lia.
  destruct (Z.ltb_spec idx 0).
  - rewrite (to_llong_small (L + idx)) by size_lia.
    destruct (Z.ltb_spec (L + idx) 0).
    + change (to_size 0) with 0. destruct (Z.ltb_spec L 0); lia.
    + rewrite to_size_small by size_lia.
      destruct (Z.ltb_spec L (L + idx)); lia.
  - rewrite to_size_small by size_lia.
    destruct (Z.ltb_spec L idx); lia.
Qed.

Lemma spec_normalize_index_range L idx :
  0 <= L -> 0 <= spec_normalize_index L idx <= L.
Proof. intros HL. unfold spec_normalize_index. lia. Qed.

(** C3, as amended: for a valid view of length [L] that fits a [long long]
    and all [int] indices, [mu_string_slice] maps a negative index [idx] to
    [L + idx] and clamps each index into [[0, L]]; the result is Empty when
    the normalised start is not below the normalised end and the part of the
    view between the two otherwise, so its length lies in [[0, L]] and it
    lies inside the view.  [MU_STRING_END] is the index [INT_MAX]: it is
    normalised to [L] for every view of at most [INT_MAX] bytes. *)
Theorem C3_slice_normalised s start end_ :
  mu_string_is_valid s = true -> 0 <= len s <= LLONG_MAX ->
  int_ok start -> int_ok end_ ->
  let L := len s in
  let start' := spec_normalize_index L start in
  let end' := spec_normalize_index L end_ in
  mu_string_slice s start end_ = spec_slice s start end_ /\
  (end' <= start' -> mu_string_slice s start end_ = MU_STRING_EMPTY) /\
  (start' < end' -> mu_string_slice s start end_ = subrange s start' end') /\
  0 <= start' <= L /\ 0 <= end' <= L /\
  0 <= len (mu_string_slice s start end_) <= L /\
  (L <= INT_MAX -> spec_normalize_index L MU_STRING_END = L).
Proof.
  intros Hv HL Hstart Hend L start' end'.
  pose proof (spec_normalize_index_range L start ltac:(lia)) as Hs'.
  pose proof (spec_normalize_index_range L end_ ltac:(lia)) as He'.
  fold start' in Hs'. fold end' in He'.
  assert (Hcode : mu_string_slice s start end_ =
                  if end' <=? start' then MU_STRING_EMPTY else subrange s start' end').
  { unfold mu_string_slice. rewrite Hv. simpl.
    rewrite !clamp_index_spec by assumption. fold L start' end'.
    destruct (Z.eqb_spec L 0) as [E|E].
    - destruct (Z.leb_spec end' start'); [reflexivity | lia].
    - destruct (Z.leb_spec end' start'); [reflexivity|].
      unfold subrange, size_sub. now rewrite to_size_small by size_lia. }
  repeat split; try lia.
  - exact Hcode.
  - intros H. rewrite Hcode. destruct (Z.leb_spec end' start'); [reflexivity | lia].
  - intros H. rewrite Hcode. destruct (Z.leb_spec end' start'); [lia | reflexivity].
  - rewrite Hcode. destruct (Z.leb_spec end' start'); simpl; lia.
  - rewrite Hcode. destruct (Z.leb_spec end' start'); simpl; lia.
  - intros H. unfold spec_normalize_index, MU_STRING_END, INT_MAX in *. simpl. lia.
Qed.

Lemma C3_slice_normalised_witness :
  mu_string_slice (MU_STR_LITERAL 3 "abcdefgh") (-2) MU_STRING_END
  = {| buf := Ptr 3 6; len := 2 |}.
Proof.
  assert (HL : 0 <= len (MU_STR_LITERAL 3 "abcdefgh") <= LLONG_MAX)
    by (unfold LLONG_MAX; simpl; lia).
  assert (Hstart : int_ok (-2)) by (unfold int_ok, INT_MIN, INT_MAX; lia).
  assert (Hend : int_ok MU_STRING_END)
    by (unfold int_ok, MU_STRING_END, INT_MIN, INT_MAX; lia).
  destruct (C3_slice_normalised (MU_STR_LITERAL 3 "abcdefgh") (-2) MU_STRING_END
              eq_refl HL Hstart Hend) as (_ & _ & H & _).
  apply H. reflexivity.
Defined.

(** C3 as stated fails beyond the range of [int] and of [long long].  In a
    view of 2^31 bytes [MU_STRING_END] stays the index [INT_MAX], so the
    slice from 0 to the end stops one byte short of the view.  In a view of
    [SIZE_MAX] bytes the length turns negative as a [long long], so the
    index -1 is taken to 0 and not to the last byte. *)
Lemma C3_slice_beyond_int :
  let s := {| buf := Ptr 2 0; len := 2147483648 |} in
  let t := {| buf := Ptr 2 0; len := SIZE_MAX |} in
  mu_string_is_valid s = true /\ size_ok (len s) /\
  mu_string_slice s 0 MU_STRING_END = {| buf := Ptr 2 0; len := 2147483647 |} /\
  mu_string_slice s 0 MU_STRING_END <> subrange s 0 (len s) /\
  spec_normalize_index (len s) MU_STRING_END <> len s /\
  mu_string_is_valid t = true /\ size_ok (len t) /\
  mu_string_slice t (-1) MU_STRING_END = {| buf := Ptr 2 0; len := 2147483647 |} /\
  spec_slice t (-1) MU_STRING_END = MU_STRING_EMPTY /\
  mu_string_slice t (-1) MU_STRING_END <> spec_slice t (-1) MU_STRING_END.
Proof.
  cbv zeta. unfold size_ok, SIZE_MAX.
  repeat split; try reflexivity; try discriminate; simpl; lia.
Qed.

(* ------------------------------------------------------------------------- *)
(** ** Trimming *)

(** The run of [mu_string_trim] on a valid, non-empty subject that is not
    matched as a whole, given where its two loops stop. *)
Lemma trim_steps m s p arg st e :
  mu_string_is_valid s = true -> len s <> 0 ->
  skip_while (fun i => p (index m (buf s) i) arg) (len s) = st ->
  st <> len s ->
  rskip_while (fun i => p (index m (buf s) i) arg)
              (to_int st) (int_sub (to_int (len s)) 1) = e ->
  mu_string_trim m s (Some p) arg =
    {| buf := ptr_add (buf s) st; len := size_add (size_sub (to_size e) st) 1 |}.
Proof.
  intros Hv Hl Hst Hne He. unfold mu_string_trim. rewrite Hv.
  cbn [negb pred_is_null orb call].
  destruct (Z.eqb_spec (len s) 0); [contradiction|]. cbn [orb].
  cbv zeta. rewrite Hst. destruct (Z.eqb_spec st (len s)); [contradiction|].
  now rewrite He.
Qed.

(** Where the forward loop of a trim stops. *)
Lemma skip_while_stops c n j :
  0 <= j < n -> c j = false -> (forall k, 0 <= k < j -> c k = true) ->
  skip_while c n = j.
Proof.
  intros Hj Hc Hall. unfold skip_while. apply first_index_least; auto.
  - now rewrite Hc.
  - intros k Hk. now rewrite Hall.
Qed.

Lemma trim_invalid m s pred arg :
  mu_string_is_valid s = false -> mu_string_trim m s pred arg = MU_STRING_INVALID.
Proof. intros Hv. unfold mu_string_trim. now rewrite Hv. Qed.

Lemma trim_unchanged m s pred arg :
  mu_string_is_valid s = true -> len s = 0 \/ pred = None ->
  mu_string_trim m s pred arg = s.
Proof.
  intros Hv [H|H]; unfold mu_string_trim; rewrite Hv, H; simpl; auto.
  now rewrite orb_true_r.
Qed.

(** Within the range of [int] a trim is idempotent. *)
Lemma trim_idempotent_within_int m s pred arg :
  0 <= len s <= INT_MAX ->
  mu_string_trim m (mu_string_trim m s pred arg) pred arg = mu_string_trim m s pred arg.
Proof.
  intros HL.
  destruct (mu_string_is_valid s) eqn:Hv;
    [|rewrite (trim_invalid m s) by exact Hv; reflexivity].
  destruct (Z.eq_dec (len s) 0) as [E0|Hne];
    [now rewrite !(trim_unchanged m s) by auto|].
  destruct pred as [p|]; [|now rewrite !(trim_unchanged m s) by auto].
  set (c := fun i => p (index m (buf s) i) arg).
  pose proof (first_index_range (fun i => negb (c i)) (len s) ltac:(lia)) as Hr.
  fold (skip_while c (len s)) in Hr.
  destruct (Z.eq_dec (skip_while c (len s)) (len s)) as [Eall|Hst].
  - assert (Ht : mu_string_trim m s (Some p) arg = MU_STRING_EMPTY).
    { unfold mu_string_trim. rewrite Hv. simpl.
      destruct (Z.eqb_spec (len s) 0); [contradiction|]. simpl.
      fold c. rewrite Eall. now rewrite Z.eqb_refl. }
    rewrite Ht. reflexivity.
  - set (st := skip_while c (len s)) in *.
    assert (Hcst : c st = false).
    { destruct (first_index_found (fun i => negb (c i)) (len s) Hst) as [_ H].
      fold (skip_while c (len s)) in H. fold st in H.
      now apply negb_true_iff in H. }
    assert (Hi0 : int_sub (to_int (len s)) 1 = len s - 1).
    { unfold int_sub. rewrite (to_int_small (len s)) by size_lia.
      apply to_int_small. size_lia. }
    assert (Hlo : to_int st = st) by (apply to_int_small; size_lia).
    pose proof (rskip_while_spec c st (len s - 1) ltac:(lia)) as He.
    set (e := rskip_while c st (len s - 1)) in *. simpl in He.
    destruct He as (Her & Hall & Hstop).
    assert (Hge : st <= e).
    { destruct (Z.le_gt_cases st e) as [H|H]; auto.
      rewrite Hall in Hcst by lia. discriminate. }
    specialize (Hstop Hge).
    assert (Ht : mu_string_trim m s (Some p) arg =
                 {| buf := ptr_add (buf s) st; len := e - st + 1 |}).
    { rewrite (trim_steps m s p arg st e Hv Hne eq_refl Hst).
      - unfold size_add, size_sub. f_equal.
        rewrite (to_size_small e) by size_lia.
        rewrite (to_size_small (e - st)) by size_lia.
        apply to_size_small. size_lia.
      - fold c. now rewrite Hlo, Hi0. }
    rewrite Ht. set (t := {| buf := ptr_add (buf s) st; len := e - st + 1 |}).
    assert (Hvt : mu_string_is_valid t = true).
    { apply valid_nonnull. simpl. destruct (valid_cases s Hv) as [H|H]; [|contradiction].
      destruct (buf s); [contradiction | discriminate]. }
    assert (Hc' : forall i, p (index m (buf t) i) arg = c (st + i)).
    { intros i. unfold c, t. simpl. now rewrite index_add. }
    rewrite (trim_steps m t p arg 0 (e - st) Hvt).
    + unfold t. simpl. rewrite ptr_add_add, Z.add_0_r. f_equal.
      unfold size_add, size_sub. rewrite Z.sub_0_r.
      rewrite (to_size_small (e - st)) by size_lia.
      rewrite (to_size_small (e - st)) by size_lia.
      apply to_size_small. size_lia.
    + simpl. lia.
    + apply skip_while_stops.
      * simpl. lia.
      * rewrite Hc', Z.add_0_r. exact Hcst.
      * intros k Hk. lia.
    + simpl. lia.
    + assert (Hi0' : int_sub (to_int (len t)) 1 = e - st).
      { unfold int_sub. simpl. rewrite (to_int_small (e - st + 1)) by size_lia.
        replace (e - st + 1 - 1) with (e - st) by lia.
        apply to_int_small. size_lia. }
      rewrite Hi0'. apply rskip_while_stop.
      rewrite Hc'. replace (st + (e - st)) with e by lia. exact Hstop.
Qed.

(** C9 does not hold of the code.  The subject has 2^31 + 1 bytes, two
    spaces and then letters.  Its length truncated to [int] is negative, so
    the downward loop of [mu_string_trim] never runs and the length of the
    result is computed from a negative index: it is 2^64 - 2^31 - 1.  A second
    trim truncates that length to [INT_MAX], finds a letter at the last index
    it looks at and answers 2^31 - 1 bytes. *)
Theorem C9_trim_not_idempotent_beyond_int :
  let m := spaces_then_x 2 in
  let s := {| buf := Ptr 2 0; len := 2147483649 |} in
  let pred := Some is_whitespace_pred in
  mu_string_is_valid s = true /\ size_ok (len s) /\
  mu_string_trim m s pred NULL =
    {| buf := Ptr 2 2; len := 18446744071562067967 |} /\
  mu_string_trim m (mu_string_trim m s pred NULL) pred NULL =
    {| buf := Ptr 2 2; len := 2147483647 |} /\
  mu_string_trim m (mu_string_trim m s pred NULL) pred NULL <>
    mu_string_trim m s pred NULL.
Proof.
  intros m s pred.
  assert (H1 : mu_string_trim m s pred NULL =
               {| buf := Ptr 2 2; len := 18446744071562067967 |}).
  { unfold pred.
    rewrite (trim_steps m s is_whitespace_pred NULL 2 (-2147483648)).
    - reflexivity.
    - reflexivity.
    - discriminate.
    - apply skip_while_stops.
      + simpl. lia.
      + reflexivity.
      + intros k Hk. each_index k 2%nat; reflexivity.
    - discriminate.
    - apply rskip_while_below. reflexivity. }
  assert (H2 : mu_string_trim m {| buf := Ptr 2 2; len := 18446744071562067967 |}
                 pred NULL = {| buf := Ptr 2 2; len := 2147483647 |}).
  { unfold pred.
    rewrite (trim_steps m _ is_whitespace_pred NULL 0 2147483646).
    - reflexivity.
    - reflexivity.
    - discriminate.
    - apply skip_while_stops.
      + simpl. lia.
      + reflexivity.
      + intros k Hk. lia.
    - discriminate.
    - apply rskip_while_stop. reflexivity. }
  split; [reflexivity|]. split; [unfold size_ok, SIZE_MAX; simpl; lia|].
  rewrite H1, H2. repeat split. discriminate.
Qed.

(* ------------------------------------------------------------------------- *)
(** ** Scenarios of the test suite

    The embedding run on inputs of test_mu_string.c, with the outcome the
    tests assert. *)

Example test_split_at_char_found :
  let r := mu_string_split_at_char test_mem (MU_STR_LITERAL 10 "key=value")
             (Some MU_STRING_EMPTY) "=" in
  mu_string_eq test_mem (MU_STR_LITERAL 11 "key") (fst r) = true /\
  option_map (mu_string_eq test_mem (MU_STR_LITERAL 12 "=value")) (snd r) = Some true.
Proof. split; reflexivity. Qed.

Example test_slice_inner :
  mu_string_eq test_mem (MU_STR_LITERAL 14 "cdef")
    (mu_string_slice (MU_STR_LITERAL 13 "abcdefgh") 2 6) = true /\
  mu_string_slice (MU_STR_LITERAL 13 "abcdefgh") 6 2 = MU_STRING_EMPTY /\
  mu_string_slice (MU_STR_LITERAL 13 "abcdefgh") (-100) 3 =
    {| buf := Ptr 13 0; len := 3 |} /\
  mu_string_slice (MU_STR_LITERAL 13 "abcdefgh") 9 MU_STRING_END = MU_STRING_EMPTY.
Proof. repeat split. Qed.

Example test_trim_whitespace :
  mu_string_eq test_mem (MU_STR_LITERAL 16 "hello world")
    (mu_string_trim test_mem (MU_STR_LITERAL 15 "  hello world   ")
       (Some is_whitespace_pred) NULL) = true /\
  mu_string_eq test_mem (MU_STR_LITERAL 18 "abc")
    (mu_string_trim test_mem (MU_STR_LITERAL 17 "...abc...")
       (Some is_dot_pred) NULL) = true /\
  mu_string_trim test_mem (MU_STR_LITERAL 17 "...abc...") None NULL =
    MU_STR_LITERAL 17 "...abc...".
Proof. repeat split. Qed.

Example test_rfind_char :
  mu_string_eq test_mem (MU_STR_LITERAL 20 "orld")
    (mu_string_rfind_char test_mem (MU_STR_LITERAL 16 "hello world") "o") = true /\
  mu_string_rfind_char test_mem (MU_STR_LITERAL 16 "hello world") "z" = MU_STRING_EMPTY.
Proof. split; reflexivity. Qed.

Example test_copy_truncates :
  let r := mu_string_copy test_mem {| mut_buf := Ptr 2 0; mut_len := 3 |}
             (MU_STR_LITERAL 19 "too_long") in
  snd r = {| buf := Ptr 2 0; len := 3 |} /\
  view_bytes (fst r) (snd r) = String.list_byte_of_string "too".
Proof. split; reflexivity. Qed.

(* ------------------------------------------------------------------------- *)
(** * Further properties of the library *)

(** ** Comparing bytes *)

Lemma byte_eqb_sym (x y : byte) : Byte.eqb x y = Byte.eqb y x.
Proof.
  destruct (Byte.eqb x y) eqn:E.
  - apply Byte.byte_dec_bl in E. subst. symmetry. now apply Byte.byte_dec_lb.
  - apply Byte.eqb_false in E. symmetry. apply eqb_neq. congruence.
Qed.

Lemma memcmp_from_opp m p q fuel : forall i,
  memcmp_from m q p fuel i = - memcmp_from m p q fuel i.
Proof.
  induction fuel as [|fuel IH]; intros i; simpl; [reflexivity|].
  rewrite (byte_eqb_sym (index m q i)).
  destruct (Byte.eqb (index m p i) (index m q i)); [apply IH | lia].
Qed.

Lemma memcmp_opp m p q n : memcmp m q p n = - memcmp m p q n.
Proof. apply memcmp_from_opp. Qed.

Lemma memcmp_from_same m p fuel : forall i, memcmp_from m p p fuel i = 0.
Proof.
  induction fuel as [|fuel IH]; intros i; simpl; [reflexivity|].
  now rewrite (Byte.byte_dec_lb eq_refl).
Qed.

(** [memcmp] answers the difference at the first index where the two ranges
    differ. *)
Lemma memcmp_from_first_diff m p q fuel : forall i k,
  i <= k < i + Z.of_nat fuel ->
  (forall j, i <= j < k -> index m p j = index m q j) ->
  index m p k <> index m q k ->
  memcmp_from m p q fuel i = byte_val (index m p k) - byte_val (index m q k).
Proof.
  induction fuel as [|fuel IH]; intros i k Hk Hsame Hdiff; simpl; [lia|].
  destruct (Z.eq_dec i k) as [->|Hne].
  - now rewrite (eqb_neq _ _ Hdiff).
  - rewrite (Byte.byte_dec_lb (Hsame i ltac:(lia))).
    apply IH; [lia | | exact Hdiff]. intros j Hj. apply Hsame. lia.
Qed.

Lemma read_bytes_eq_iff m p m' p' n :
  read_bytes m p n = read_bytes m' p' n <->
  (forall i, 0 <= i < Z.of_nat n -> index m p i = index m' p' i).
Proof.
  split; [|apply read_bytes_ext].
  unfold read_bytes. intros H i Hi.
  rewrite map_ext_in_iff in H. specialize (H (Z.to_nat i)).
  simpl in H. rewrite Z2Nat.id in H by lia. apply H. apply in_seq. lia.
Qed.

(* ------------------------------------------------------------------------- *)
(** ** Equality and order *)

(** X1: every view, valid or not, is equal to itself, and the comparison of
    a view with itself answers 0. *)
Theorem eq_cmp_reflexive m s :
  mu_string_eq m s s = true /\ mu_string_cmp m s s = 0.
Proof.
  unfold mu_string_eq, mu_string_cmp, memcmp.
  destruct (mu_string_is_valid s); simpl; [|auto].
  rewrite Z.eqb_refl, Z.ltb_irrefl, memcmp_from_same. simpl.
  destruct (len s =? 0); auto.
Qed.

(** X2: equality does not depend on the order of its operands. *)
Theorem eq_symmetric m s1 s2 : mu_string_eq m s1 s2 = mu_string_eq m s2 s1.
Proof.
  unfold mu_string_eq.
  destruct (mu_string_is_valid s1), (mu_string_is_valid s2); simpl; auto.
  rewrite (Z.eqb_sym (len s2)).
  destruct (Z.eqb_spec (len s1) (len s2)) as [E|E]; simpl; auto.
  rewrite <- E. destruct (len s1 =? 0); auto.
  rewrite (memcmp_opp m (buf s1) (buf s2)).
  destruct (Z.eqb_spec (memcmp m (buf s1) (buf s2) (len s1)) 0) as [E0|E0].
  - rewrite E0. reflexivity.
  - symmetry. apply Z.eqb_neq. lia.
Qed.

(** X3: two valid views are equal exactly when they have the same length and
    describe the same bytes, wherever their buffers are. *)
Theorem eq_valid_iff m s1 s2 :
  mu_string_is_valid s1 = true -> mu_string_is_valid s2 = true ->
  0 <= len s1 ->
  (mu_string_eq m s1 s2 = true <->
   len s1 = len s2 /\ view_bytes m s1 = view_bytes m s2).
Proof.
  intros H1 H2 Hl. unfold mu_string_eq. rewrite H1, H2. simpl.
  destruct (Z.eqb_spec (len s1) (len s2)) as [E|E]; simpl.
  - unfold view_bytes. rewrite <- E.
    destruct (Z.eqb_spec (len s1) 0) as [E0|E0].
    + rewrite E0. simpl. tauto.
    + rewrite Z.eqb_eq, memcmp_zero_iff by exact Hl.
      rewrite read_bytes_eq_iff, Z2Nat.id by exact Hl. tauto.
  - split; [discriminate | tauto].
Qed.

Lemma eq_valid_iff_witness :
  mu_string_eq test_mem (MU_STR_LITERAL 14 "cdef")
    {| buf := Ptr 13 2; len := 4 |} = true.
Proof.
  apply (eq_valid_iff test_mem (MU_STR_LITERAL 14 "cdef")
           {| buf := Ptr 13 2; len := 4 |} eq_refl eq_refl).
  - simpl. lia.
  - split; reflexivity.
Defined.

(** X4: a view that is not valid is equal to the views that are not valid
    and to no valid view; in the order it comes before every valid view. *)
Theorem invalid_eq_cmp m s1 s2 :
  mu_string_is_valid s1 = false ->
  mu_string_eq m s1 s2 = negb (mu_string_is_valid s2) /\
  mu_string_eq m s2 s1 = negb (mu_string_is_valid s2) /\
  mu_string_cmp m s1 s2 = (if mu_string_is_valid s2 then -1 else 0) /\
  mu_string_cmp m s2 s1 = (if mu_string_is_valid s2 then 1 else 0).
Proof.
  intros H1. unfold mu_string_eq, mu_string_cmp. rewrite H1.
  destruct (mu_string_is_valid s2); simpl; auto.
Qed.

Lemma invalid_eq_cmp_witness :
  mu_string_eq no_mem MU_STRING_INVALID {| buf := NULL; len := 5 |} = true /\
  mu_string_cmp no_mem MU_STRING_INVALID MU_STRING_EMPTY = -1.
Proof.
  split.
  - apply (invalid_eq_cmp no_mem MU_STRING_INVALID {| buf := NULL; len := 5 |} eq_refl).
  - apply (invalid_eq_cmp no_mem MU_STRING_INVALID MU_STRING_EMPTY eq_refl).
Defined.

(** X5: the comparison answers 0 exactly for the pairs that [mu_string_eq]
    accepts. *)
Theorem cmp_zero_iff_eq m s1 s2 :
  mu_string_cmp m s1 s2 = 0 <-> mu_string_eq m s1 s2 = true.
Proof.
  unfold mu_string_cmp, mu_string_eq.
  destruct (mu_string_is_valid s1), (mu_string_is_valid s2); simpl;
    try (split; [reflexivity || discriminate | reflexivity || discriminate]).
  destruct (Z.eqb_spec (len s1) 0) as [E1|E1], (Z.eqb_spec (len s2) 0) as [E2|E2];
    simpl.
  - rewrite E1, E2. simpl. tauto.
  - destruct (Z.eqb_spec (len s1) (len s2)); [congruence|].
    simpl. split; discriminate.
  - destruct (Z.eqb_spec (len s1) (len s2)); [congruence|].
    simpl. split; discriminate.
  - destruct (Z.eqb_spec (len s1) (len s2)) as [E|E]; simpl.
    + rewrite <- E, Z.ltb_irrefl.
      destruct (Z.eqb_spec (memcmp m (buf s1) (buf s2) (len s1)) 0); simpl;
        [tauto | split; [contradiction | discriminate]].
    + split; [|discriminate]. intros H. exfalso.
      destruct (_ =? 0) eqn:Ec in H; simpl in H.
      * destruct (Z.ltb_spec (len s1) (len s2)); [discriminate|].
        destruct (Z.ltb_spec (len s2) (len s1)); [discriminate | lia].
      * apply Z.eqb_neq in Ec. contradiction.
Qed.

(** X6: swapping the operands of the comparison swaps the sign of its
    answer. *)
Theorem cmp_antisymmetric m s1 s2 :
  Z.sgn (mu_string_cmp m s2 s1) = - Z.sgn (mu_string_cmp m s1 s2).
Proof.
  rewrite <- Z.sgn_opp. f_equal.
  unfold mu_string_cmp.
  destruct (mu_string_is_valid s1), (mu_string_is_valid s2); simpl; auto.
  destruct (Z.eqb_spec (len s1) 0), (Z.eqb_spec (len s2) 0); simpl; auto.
  assert (Hmin : (if len s2 <? len s1 then len s2 else len s1) =
                 (if len s1 <? len s2 then len s1 else len s2)).
  { destruct (Z.ltb_spec (len s2) (len s1)), (Z.ltb_spec (len s1) (len s2)); lia. }
  rewrite Hmin, (memcmp_opp m (buf s1) (buf s2)).
  set (c := memcmp m (buf s1) (buf s2) _).
  destruct (Z.eqb_spec c 0) as [E|E].
  - rewrite E. simpl.
    destruct (Z.ltb_spec (len s2) (len s1)), (Z.ltb_spec (len s1) (len s2));
      try reflexivity; lia.
  - destruct (Z.eqb_spec (- c) 0); [lia|]. reflexivity.
Qed.

Lemma memcmp_from_ext m p p' q q' fuel : forall i,
  (forall j, index m p j = index m p' j) ->
  (forall j, index m q j = index m q' j) ->
  memcmp_from m p q fuel i = memcmp_from m p' q' fuel i.
Proof.
  induction fuel as [|fuel IH]; intros i Hp Hq; simpl; [reflexivity|].
  rewrite Hp, Hq, IH by assumption. reflexivity.
Qed.

Lemma index_back m p n j : index m (ptr_add (ptr_add p n) (- n)) j = index m p j.
Proof. rewrite !index_add. f_equal. lia. Qed.

(** X7: where two valid views first differ decides their order: the view
    with the smaller byte, taken as an unsigned char, comes first. *)
Theorem cmp_first_difference m s1 s2 k :
  mu_string_is_valid s1 = true -> mu_string_is_valid s2 = true ->
  0 <= k < len s1 -> k < len s2 ->
  (forall j, 0 <= j < k -> index m (buf s1) j = index m (buf s2) j) ->
  index m (buf s1) k <> index m (buf s2) k ->
  (byte_val (index m (buf s1) k) < byte_val (index m (buf s2) k) ->
     mu_string_cmp m s1 s2 < 0) /\
  (byte_val (index m (buf s2) k) < byte_val (index m (buf s1) k) ->
     0 < mu_string_cmp m s1 s2).
Proof.
  intros H1 H2 Hk1 Hk2 Hsame Hdiff.
  assert (E : mu_string_cmp m s1 s2 =
              byte_val (index m (buf s1) k) - byte_val (index m (buf s2) k)).
  { unfold mu_string_cmp. rewrite H1, H2. simpl.
    destruct (Z.eqb_spec (len s1) 0); [lia|].
    destruct (Z.eqb_spec (len s2) 0); [lia|]. simpl.
    set (min_len := if len s1 <? len s2 then len s1 else len s2).
    assert (Hn : k < min_len) by (unfold min_len; destruct (len s1 <? len s2); lia).
    unfold memcmp.
    rewrite (memcmp_from_first_diff m (buf s1) (buf s2) (Z.to_nat min_len) 0 k)
      by (auto; lia).
    destruct (Z.eqb_spec (byte_val (index m (buf s1) k)
                          - byte_val (index m (buf s2) k)) 0) as [E0|E0];
      [|reflexivity].
    exfalso. apply Hdiff, byte_val_inj. lia. }
  rewrite E. split; lia.
Qed.

Lemma cmp_first_difference_witness :
  mu_string_cmp test_mem (MU_STR_LITERAL 18 "abc") (MU_STR_LITERAL 14 "cdef") < 0.
Proof.
  apply (cmp_first_difference test_mem (MU_STR_LITERAL 18 "abc")
           (MU_STR_LITERAL 14 "cdef") 0 eq_refl eq_refl).
  - simpl. lia.
  - simpl. lia.
  - intros j Hj. lia.
  - discriminate.
  - reflexivity.
Defined.

(** X8: [mu_string_starts_with] answers true exactly when both views are
    valid, the prefix is no longer than the subject and its bytes are the
    first bytes of the subject; an empty valid prefix is always accepted and
    an invalid operand never. *)
Theorem starts_with_iff m s prefix :
  0 <= len s -> 0 <= len prefix ->
  (mu_string_starts_with m s prefix = true <->
   mu_string_is_valid s = true /\ mu_string_is_valid prefix = true /\
   len prefix <= len s /\
   (forall j, 0 <= j < len prefix ->
      index m (buf s) j = index m (buf prefix) j)).
Proof.
  intros Hs Hp. unfold mu_string_starts_with.
  destruct (mu_string_is_valid s), (mu_string_is_valid prefix); simpl;
    try (split; [discriminate | intros (A & B & _); discriminate]).
  destruct (Z.eqb_spec (len prefix) 0) as [E|E].
  - rewrite E. split; auto. intros _. repeat split; auto. intros j Hj. lia.
  - destruct (Z.ltb_spec (len s) (len prefix)).
    + split; [discriminate | intros (_ & _ & A & _); lia].
    + destruct (Z.eqb_spec (len s) 0); [lia|].
      rewrite Z.eqb_eq, memcmp_zero_iff by exact Hp. tauto.
Qed.

Lemma starts_with_iff_witness :
  mu_string_starts_with test_mem (MU_STR_LITERAL 10 "key=value")
    (MU_STR_LITERAL 11 "key") = true.
Proof.
  apply (starts_with_iff test_mem (MU_STR_LITERAL 10 "key=value")
           (MU_STR_LITERAL 11 "key")); simpl; try lia.
  repeat split; try lia.
  intros j Hj. each_index j 3%nat; reflexivity.
Defined.

(** X9: [mu_string_ends_with] answers true exactly when both views are
    valid, the suffix is no longer than the subject and its bytes are the
    last bytes of the subject. *)
Theorem ends_with_iff m s suffix :
  0 <= len s -> 0 <= len suffix ->
  (mu_string_ends_with m s suffix = true <->
   mu_string_is_valid s = true /\ mu_string_is_valid suffix = true /\
   len suffix <= len s /\
   (forall j, 0 <= j < len suffix ->
      index m (buf s) (len s - len suffix + j) = index m (buf suffix) j)).
Proof.
  intros Hs Hp. unfold mu_string_ends_with.
  destruct (mu_string_is_valid s), (mu_string_is_valid suffix); simpl;
    try (split; [discriminate | intros (A & B & _); discriminate]).
  destruct (Z.eqb_spec (len suffix) 0) as [E|E].
  - rewrite E. split; auto. intros _. repeat split; auto. intros j Hj. lia.
  - destruct (Z.ltb_spec (len s) (len suffix)).
    + split; [discriminate | intros (_ & _ & A & _); lia].
    + destruct (Z.eqb_spec (len s) 0); [lia|].
      rewrite Z.eqb_eq, memcmp_zero_iff by exact Hp.
      assert (Hidx : forall j,
                index m (ptr_add (ptr_add (buf s) (len s)) (- len suffix)) j =
                index m (buf s) (len s - len suffix + j)).
      { intros j. rewrite !index_add. f_equal. lia. }
      split.
      * intros Hm. repeat split; auto. intros j Hj. rewrite <- Hidx. now apply Hm.
      * intros (_ & _ & _ & Hm) j Hj. rewrite Hidx. now apply Hm.
Qed.

Lemma ends_with_iff_witness :
  mu_string_ends_with test_mem (MU_STR_LITERAL 10 "key=value")
    (MU_STR_LITERAL 12 "=value") = true.
Proof.
  apply (ends_with_iff test_mem (MU_STR_LITERAL 10 "key=value")
           (MU_STR_LITERAL 12 "=value")); simpl; try lia.
  repeat split; try lia.
  intros j Hj. each_index j 6%nat; reflexivity.
Defined.

(** X10: a view that is a proper prefix of another comes before it in the
    order. *)
Theorem cmp_proper_prefix m s prefix :
  mu_string_starts_with m s prefix = true ->
  0 <= len prefix < len s ->
  mu_string_cmp m prefix s = -1 /\ mu_string_cmp m s prefix = 1.
Proof.
  intros Hsw Hl.
  apply starts_with_iff in Hsw; [|lia|lia].
  destruct Hsw as (Hvs & Hvp & _ & Hbytes).
  assert (Hc : memcmp m (buf prefix) (buf s) (len prefix) = 0).
  { apply memcmp_zero_iff; [lia|]. intros j Hj. symmetry. now apply Hbytes. }
  unfold mu_string_cmp. rewrite Hvs, Hvp. simpl.
  destruct (Z.eqb_spec (len s) 0); [lia|].
  destruct (Z.eqb_spec (len prefix) 0); simpl; [auto|].
  destruct (Z.ltb_spec (len prefix) (len s)); [|lia].
  destruct (Z.ltb_spec (len s) (len prefix)); [lia|].
  rewrite Hc, (memcmp_opp m (buf prefix) (buf s)), Hc. simpl. auto.
Qed.

Lemma cmp_proper_prefix_witness :
  mu_string_cmp test_mem (MU_STR_LITERAL 11 "key") (MU_STR_LITERAL 10 "key=value") = -1.
Proof.
  apply (cmp_proper_prefix test_mem (MU_STR_LITERAL 10 "key=value")
           (MU_STR_LITERAL 11 "key") eq_refl).
  simpl. lia.
Defined.

(* ------------------------------------------------------------------------- *)
(** ** What the searches return *)

Lemma valid_nonempty_buf s :
  mu_string_is_valid s = true -> len s <> 0 -> buf s <> NULL.
Proof. intros Hv Hl. destruct (valid_cases s Hv); [assumption | contradiction]. Qed.

Lemma ptr_add_nonnull p i : p <> NULL -> ptr_add p i <> NULL.
Proof. destruct p; [contradiction | discriminate]. Qed.

(** The part of a valid view from an index of it on is a suffix of it. *)
Lemma ends_with_tail m s i :
  mu_string_is_valid s = true -> size_ok (len s) -> 0 <= i < len s ->
  mu_string_ends_with m s
    {| buf := ptr_add (buf s) i; len := size_sub (len s) i |} = true.
Proof.
  intros Hv Hs Hi. unfold size_sub. rewrite to_size_small by size_lia.
  apply ends_with_iff; simpl; try size_lia.
  repeat split; try lia; auto.
  - apply valid_nonnull. simpl. apply ptr_add_nonnull.
    apply valid_nonempty_buf; [assumption | lia].
  - intros j Hj. rewrite index_add. f_equal. lia.
Qed.

Lemma ends_with_empty m s :
  mu_string_is_valid s = true -> mu_string_ends_with m s MU_STRING_EMPTY = true.
Proof. intros Hv. unfold mu_string_ends_with. now rewrite Hv. Qed.

Lemma ends_with_self m s :
  mu_string_is_valid s = true -> 0 <= len s -> mu_string_ends_with m s s = true.
Proof.
  intros Hv Hs. apply ends_with_iff; auto. repeat split; auto; try lia.
  intros j Hj. f_equal. lia.
Qed.

Lemma rfind_first_greatest c i0 j :
  0 <= j <= i0 -> c j = true -> (forall k, j < k <= i0 -> c k = false) ->
  rfind_first c i0 = Some j.
Proof.
  intros Hj Hc Hmax. unfold rfind_first.
  destruct (rfind_from c (Z.to_nat (i0 + 1)) i0) as [j'|] eqn:E.
  - apply rfind_from_Some in E. destruct E as (Hr & Hc' & Hmax').
    f_equal. destruct (Z.lt_trichotomy j' j) as [Hlt|[->|Hgt]]; auto.
    + rewrite Hmax' in Hc by lia. discriminate.
    + rewrite Hmax in Hc' by lia. discriminate.
  - rewrite (rfind_from_None _ _ _ E j) in Hc by lia. discriminate.
Qed.

Section SearchResults.

Variable m : mem.
Variable s : mu_string_t.
Hypothesis Hvalid : mu_string_is_valid s = true.
Hypothesis Hsize : size_ok (len s).

Lemma forward_result_suffix (c : Z -> bool) :
  mu_string_ends_with m s
    match find_first c (len s) with
    | Some i => {| buf := ptr_add (buf s) i; len := size_sub (len s) i |}
    | None => MU_STRING_EMPTY
    end = true.
Proof.
  destruct (find_first c (len s)) as [i|] eqn:E.
  - apply find_first_Some in E. apply ends_with_tail; auto. lia.
  - now apply ends_with_empty.
Qed.

Lemma backward_result_suffix (c : Z -> bool) :
  len s <> 0 ->
  mu_string_ends_with m s
    match rfind_first c (int_sub (to_int (len s)) 1) with
    | Some i => {| buf := ptr_add (buf s) i; len := size_sub (len s) (to_size i) |}
    | None => MU_STRING_EMPTY
    end = true.
Proof.
  intros Hne.
  destruct (rfind_first c (int_sub (to_int (len s)) 1)) as [i|] eqn:E.
  - apply rfind_first_Some in E. destruct E as [Hi _].
    pose proof (int_start_below (len s) ltac:(size_lia)).
    rewrite (to_size_small i) by size_lia.
    apply ends_with_tail; auto. lia.
  - now apply ends_with_empty.
Qed.

Lemma search_results_suffix c pred arg :
  mu_string_ends_with m s (mu_string_find_char m s c) = true /\
  mu_string_ends_with m s (mu_string_rfind_char m s c) = true /\
  mu_string_ends_with m s (mu_string_find_pred m s pred arg) = true /\
  mu_string_ends_with m s (mu_string_rfind_pred m s pred arg) = true /\
  mu_string_ends_with m s (mu_string_find_first_not_pred m s pred arg) = true.
Proof.
  unfold mu_string_find_char, mu_string_rfind_char, mu_string_find_pred,
    mu_string_rfind_pred, mu_string_find_first_not_pred.
  rewrite Hvalid. simpl.
  destruct (Z.eqb_spec (len s) 0) as [E|E]; simpl.
  - rewrite !ends_with_empty by assumption. auto.
  - split; [apply forward_result_suffix|].
    split; [now apply backward_result_suffix|].
    destruct (pred_is_null pred).
    + rewrite !ends_with_empty by assumption. repeat split.
      replace {| buf := buf s; len := len s |} with s by (now destruct s).
      apply ends_with_self; [assumption | size_lia].
    + split; [apply forward_result_suffix|].
      split; [now apply backward_result_suffix|].
      set (c' := fun i => call pred (index m (buf s) i) arg).
      destruct (Z.eqb_spec (skip_while c' (len s)) (len s)) as [Ea|Ea].
      * now apply ends_with_empty.
      * apply ends_with_tail; auto.
        pose proof (first_index_range (fun i => negb (c' i)) (len s) ltac:(size_lia)).
        unfold skip_while in *. lia.
Qed.

Lemma find_str_result_suffix needle :
  mu_string_is_valid needle = true -> size_ok (len needle) ->
  mu_string_ends_with m s (mu_string_find_str m s needle) = true.
Proof.
  intros Hvn Hn. unfold mu_string_find_str. rewrite Hvalid, Hvn. simpl.
  destruct (Z.eqb_spec (len needle) 0).
  - apply ends_with_self; [assumption | size_lia].
  - destruct (Z.ltb_spec (len s) (len needle)); [now apply ends_with_empty|].
    unfold size_sub at 1. rewrite to_size_small by size_lia.
    destruct (find_first _ _) as [i|] eqn:E.
    + apply find_first_Some in E. apply ends_with_tail; auto. size_lia.
    + now apply ends_with_empty.
Qed.

End SearchResults.

(** X11: whatever a search answers for a valid subject is a suffix of the
    subject: [mu_string_ends_with] accepts the result of each of the six
    searches (for the substring search, given a valid needle).  In
    particular no result reaches outside the subject. *)
Theorem search_result_is_suffix m s c pred arg needle :
  mu_string_is_valid s = true -> size_ok (len s) ->
  mu_string_ends_with m s (mu_string_find_char m s c) = true /\
  mu_string_ends_with m s (mu_string_rfind_char m s c) = true /\
  mu_string_ends_with m s (mu_string_find_pred m s pred arg) = true /\
  mu_string_ends_with m s (mu_string_rfind_pred m s pred arg) = true /\
  mu_string_ends_with m s (mu_string_find_first_not_pred m s pred arg) = true /\
  (mu_string_is_valid needle = true -> size_ok (len needle) ->
   mu_string_ends_with m s (mu_string_find_str m s needle) = true).
Proof.
  intros Hv Hs.
  destruct (search_results_suffix m s Hv Hs c pred arg) as (A & B & C & D & E).
  repeat (split; [assumption|]). now apply find_str_result_suffix.
Qed.

Lemma search_result_is_suffix_witness :
  mu_string_ends_with test_mem (MU_STR_LITERAL 16 "hello world")
    (mu_string_rfind_char test_mem (MU_STR_LITERAL 16 "hello world") "o") = true.
Proof.
  assert (Hs : size_ok (len (MU_STR_LITERAL 16 "hello world")))
    by (unfold size_ok, SIZE_MAX; simpl; lia).
  destruct (search_result_is_suffix test_mem (MU_STR_LITERAL 16 "hello world")
              "o" None NULL MU_STRING_EMPTY eq_refl Hs) as (_ & H & _).
  exact H.
Defined.

(** X12: the forward searches answer the part of the subject from the first
    matching byte on: for [mu_string_find_char] the first byte equal to the
    character, for [mu_string_find_pred] the first byte the predicate
    accepts. *)
Theorem find_first_match m s i :
  mu_string_is_valid s = true -> size_ok (len s) -> 0 <= i < len s ->
  (forall c,
     index m (buf s) i = c ->
     (forall k, 0 <= k < i -> index m (buf s) k <> c) ->
     mu_string_find_char m s c =
       {| buf := ptr_add (buf s) i; len := len s - i |}) /\
  (forall p arg,
     p (index m (buf s) i) arg = true ->
     (forall k, 0 <= k < i -> p (index m (buf s) k) arg = false) ->
     mu_string_find_pred m s (Some p) arg =
       {| buf := ptr_add (buf s) i; len := len s - i |}).
Proof.
  intros Hv Hs Hi.
  assert (Hsub : size_sub (len s) i = len s - i).
  { unfold size_sub. apply to_size_small. size_lia. }
  split.
  - intros c Hc Hfirst. unfold mu_string_find_char. rewrite Hv. simpl.
    destruct (Z.eqb_spec (len s) 0); [lia|].
    rewrite (find_first_least _ _ i); auto.
    + now rewrite Hsub.
    + rewrite Hc. now apply Byte.byte_dec_lb.
    + intros k Hk. apply eqb_neq. now apply Hfirst.
  - intros p arg Hc Hfirst. unfold mu_string_find_pred. rewrite Hv. simpl.
    destruct (Z.eqb_spec (len s) 0); [lia|]. simpl.
    rewrite (find_first_least _ _ i); auto. now rewrite Hsub.
Qed.

Lemma find_first_match_witness :
  mu_string_find_char test_mem (MU_STR_LITERAL 10 "key=value") "=" =
    {| buf := Ptr 10 3; len := 6 |}.
Proof.
  assert (Hs : size_ok (len (MU_STR_LITERAL 10 "key=value")))
    by (unfold size_ok, SIZE_MAX; simpl; lia).
  destruct (find_first_match test_mem (MU_STR_LITERAL 10 "key=value") 3
              eq_refl Hs ltac:(simpl; lia)) as [H _].
  apply (H "="%byte eq_refl).
  intros k Hk. each_index k 3%nat; discriminate.
Defined.

(** X13: for a subject of at most [INT_MAX] bytes the backward searches
    answer the part of the subject from the last matching byte on. *)
Theorem rfind_last_match m s i :
  mu_string_is_valid s = true -> 0 <= len s <= INT_MAX -> 0 <= i < len s ->
  (forall c,
     index m (buf s) i = c ->
     (forall k, i < k < len s -> index m (buf s) k <> c) ->
     mu_string_rfind_char m s c =
       {| buf := ptr_add (buf s) i; len := len s - i |}) /\
  (forall p arg,
     p (index m (buf s) i) arg = true ->
     (forall k, i < k < len s -> p (index m (buf s) k) arg = false) ->
     mu_string_rfind_pred m s (Some p) arg =
       {| buf := ptr_add (buf s) i; len := len s - i |}).
Proof.
  intros Hv Hs Hi.
  assert (Hsub : size_sub (len s) (to_size i) = len s - i).
  { unfold size_sub. rewrite (to_size_small i) by size_lia.
    apply to_size_small. size_lia. }
  assert (Hi0 : int_sub (to_int (len s)) 1 = len s - 1).
  { unfold int_sub. rewrite (to_int_small (len s)) by size_lia.
    apply to_int_small. size_lia. }
  split.
  - intros c Hc Hlast. unfold mu_string_rfind_char. rewrite Hv. simpl.
    destruct (Z.eqb_spec (len s) 0); [lia|]. rewrite Hi0.
    rewrite (rfind_first_greatest _ _ i); try lia.
    + now rewrite Hsub.
    + rewrite Hc. now apply Byte.byte_dec_lb.
    + intros k Hk. apply eqb_neq. apply Hlast. lia.
  - intros p arg Hc Hlast. unfold mu_string_rfind_pred. rewrite Hv. simpl.
    destruct (Z.eqb_spec (len s) 0); [lia|]. simpl. rewrite Hi0.
    rewrite (rfind_first_greatest _ _ i); try lia; auto.
    + now rewrite Hsub.
    + intros k Hk. apply Hlast. lia.
Qed.

Lemma rfind_last_match_witness :
  mu_string_rfind_char test_mem (MU_STR_LITERAL 16 "hello world") "o" =
    {| buf := Ptr 16 7; len := 4 |}.
Proof.
  destruct (rfind_last_match test_mem (MU_STR_LITERAL 16 "hello world") 7
              eq_refl ltac:(unfold INT_MAX; simpl; lia) ltac:(simpl; lia)) as [H _].
  apply (H "o"%byte eq_refl).
  intros k Hk. simpl in Hk.
  assert (Hc : k = 8 \/ k = 9 \/ k = 10) by lia.
  destruct Hc as [->|[->| ->]]; discriminate.
Defined.

(* ------------------------------------------------------------------------- *)
(** ** What the splits return *)

Lemma read_bytes_split m p i L :
  0 <= i <= L ->
  read_bytes m p (Z.to_nat i) ++ read_bytes m (ptr_add p i) (Z.to_nat (L - i)) =
  read_bytes m p (Z.to_nat L).
Proof.
  intros Hi. replace (Z.to_nat L) with (Z.to_nat i + Z.to_nat (L - i))%nat by lia.
  rewrite read_bytes_app, Z2Nat.id by lia. reflexivity.
Qed.

(** A loop that has something to find finds it. *)
Lemma find_first_exists c n :
  (exists i, 0 <= i < n /\ c i = true) ->
  exists j, find_first c n = Some j /\ 0 <= j < n.
Proof.
  intros (i & Hi & Hc). destruct (find_first c n) as [j|] eqn:E.
  - exists j. split; auto. apply find_first_Some in E. tauto.
  - rewrite (find_first_None _ _ E i Hi) in Hc. discriminate.
Qed.

(** X14: when the split point exists at index [i], each of the three splits
    returns the [i] bytes before it and, if [after] is non-null, writes the
    rest of the subject, split point included, into [after]; the two parts
    put together are the bytes of the subject.  The split point is the first
    byte equal to the delimiter, the first byte the predicate accepts, or the
    first byte the predicate rejects. *)
Theorem split_found m s after i :
  mu_string_is_valid s = true -> size_ok (len s) -> 0 <= i < len s ->
  let before := {| buf := buf s; len := i |} in
  let rest := {| buf := ptr_add (buf s) i; len := len s - i |} in
  view_bytes m before ++ view_bytes m rest = view_bytes m s /\
  (forall c,
     index m (buf s) i = c ->
     (forall k, 0 <= k < i -> index m (buf s) k <> c) ->
     mu_string_split_at_char m s after c = (before, set_after after rest)) /\
  (forall p arg,
     p (index m (buf s) i) arg = true ->
     (forall k, 0 <= k < i -> p (index m (buf s) k) arg = false) ->
     mu_string_split_by_pred m s after (Some p) arg =
       (before, set_after after rest)) /\
  (forall p arg,
     p (index m (buf s) i) arg = false ->
     (forall k, 0 <= k < i -> p (index m (buf s) k) arg = true) ->
     mu_string_split_by_not_pred m s after (Some p) arg =
       (before, set_after after rest)).
Proof.
  intros Hv Hs Hi before rest.
  assert (Hsub : size_sub (len s) i = len s - i).
  { unfold size_sub. apply to_size_small. size_lia. }
  split; [|split; [|split]].
  - unfold view_bytes, before, rest. simpl. apply read_bytes_split. lia.
  - intros c Hc Hfirst. unfold mu_string_split_at_char. rewrite Hv. simpl.
    rewrite (first_index_least _ _ i); auto.
    + destruct (Z.eqb_spec i (len s)); [lia|]. simpl. now rewrite Hsub.
    + rewrite Hc. now apply Byte.byte_dec_lb.
    + intros k Hk. apply eqb_neq. now apply Hfirst.
  - intros p arg Hc Hfirst. unfold mu_string_split_by_pred. rewrite Hv. simpl.
    rewrite (first_index_least _ _ i); auto.
    destruct (Z.eqb_spec i (len s)); [lia|].
    unfold mu_string_split_handle_result.
    destruct (Z.ltb_spec i (len s)); [|lia]. now rewrite Hsub.
  - intros p arg Hc Hfirst. unfold mu_string_split_by_not_pred. rewrite Hv. simpl.
    rewrite (first_index_least _ _ i); auto.
    + unfold mu_string_split_handle_result.
      destruct (Z.ltb_spec i (len s)); [|lia]. now rewrite Hsub.
    + now rewrite Hc.
    + intros k Hk. now rewrite Hfirst.
Qed.

Lemma split_found_witness :
  mu_string_split_at_char test_mem (MU_STR_LITERAL 10 "key=value")
    (Some MU_STRING_EMPTY) "=" =
  ({| buf := Ptr 10 0; len := 3 |}, Some {| buf := Ptr 10 3; len := 6 |}).
Proof.
  assert (Hs : size_ok (len (MU_STR_LITERAL 10 "key=value")))
    by (unfold size_ok, SIZE_MAX; simpl; lia).
  destruct (split_found test_mem (MU_STR_LITERAL 10 "key=value")
              (Some MU_STRING_EMPTY) 3 eq_refl Hs ltac:(simpl; lia))
    as (_ & H & _).
  apply (H "="%byte eq_refl).
  intros k Hk. each_index k 3%nat; discriminate.
Defined.

(** X15: when the split point exists, what a split writes into [after] is
    what the matching search answers: [mu_string_find_char] for
    [mu_string_split_at_char], [mu_string_find_pred] for
    [mu_string_split_by_pred], [mu_string_find_first_not_pred] for
    [mu_string_split_by_not_pred]. *)
Theorem split_after_is_find m s old :
  mu_string_is_valid s = true ->
  (forall c,
     (exists i, 0 <= i < len s /\ index m (buf s) i = c) ->
     snd (mu_string_split_at_char m s (Some old) c) =
       Some (mu_string_find_char m s c)) /\
  (forall p arg,
     (exists i, 0 <= i < len s /\ p (index m (buf s) i) arg = true) ->
     snd (mu_string_split_by_pred m s (Some old) (Some p) arg) =
       Some (mu_string_find_pred m s (Some p) arg)) /\
  (forall p arg,
     (exists i, 0 <= i < len s /\ p (index m (buf s) i) arg = false) ->
     snd (mu_string_split_by_not_pred m s (Some old) (Some p) arg) =
       Some (mu_string_find_first_not_pred m s (Some p) arg)).
Proof.
  intros Hv. split; [|split].
  - intros c (i & Hi & Hc).
    destruct (find_first_exists (fun k => Byte.eqb (index m (buf s) k) c) (len s))
      as (j & Ej & Hj).
    { exists i. split; auto. rewrite Hc. now apply Byte.byte_dec_lb. }
    unfold mu_string_split_at_char, mu_string_find_char, first_index.
    rewrite Hv, Ej. simpl.
    destruct (Z.eqb_spec j (len s)); [lia|].
    destruct (Z.eqb_spec (len s) 0); [lia|]. reflexivity.
  - intros p arg (i & Hi & Hc).
    destruct (find_first_exists (fun k => p (index m (buf s) k) arg) (len s))
      as (j & Ej & Hj).
    { exists i. split; auto. }
    unfold mu_string_split_by_pred, mu_string_find_pred, first_index,
      mu_string_split_handle_result.
    rewrite Hv. simpl. rewrite Ej.
    destruct (Z.eqb_spec j (len s)); [lia|].
    destruct (Z.eqb_spec (len s) 0); [lia|].
    destruct (Z.ltb_spec j (len s)); [|lia]. reflexivity.
  - intros p arg (i & Hi & Hc).
    destruct (find_first_exists (fun k => negb (p (index m (buf s) k) arg)) (len s))
      as (j & Ej & Hj).
    { exists i. split; auto. now rewrite Hc. }
    unfold mu_string_split_by_not_pred, mu_string_find_first_not_pred,
      skip_while, first_index, mu_string_split_handle_result.
    rewrite Hv. simpl. rewrite Ej.
    destruct (Z.eqb_spec j (len s)); [lia|].
    destruct (Z.eqb_spec (len s) 0); [lia|].
    destruct (Z.ltb_spec j (len s)); [|lia]. reflexivity.
Qed.

Lemma split_after_is_find_witness :
  snd (mu_string_split_at_char test_mem (MU_STR_LITERAL 10 "key=value")
         (Some MU_STRING_EMPTY) "=") =
  Some (mu_string_find_char test_mem (MU_STR_LITERAL 10 "key=value") "=").
Proof.
  destruct (split_after_is_find test_mem (MU_STR_LITERAL 10 "key=value")
              MU_STRING_EMPTY eq_refl) as (H & _).
  apply H. exists 3. split; [simpl; lia | reflexivity].
Defined.

(** X16: a split of a subject that is not valid, or a predicate split with a
    null predicate, returns Invalid and writes Invalid into [after]; and
    whatever the input, a split given a null [after] writes nothing. *)
Theorem split_invalid m s after c pred arg :
  (mu_string_is_valid s = false ->
     mu_string_split_at_char m s after c =
       (MU_STRING_INVALID, set_after after MU_STRING_INVALID) /\
     mu_string_split_by_pred m s after pred arg =
       (MU_STRING_INVALID, set_after after MU_STRING_INVALID) /\
     mu_string_split_by_not_pred m s after pred arg =
       (MU_STRING_INVALID, set_after after MU_STRING_INVALID)) /\
  (pred = None ->
     mu_string_split_by_pred m s after pred arg =
       (MU_STRING_INVALID, set_after after MU_STRING_INVALID) /\
     mu_string_split_by_not_pred m s after pred arg =
       (MU_STRING_INVALID, set_after after MU_STRING_INVALID)) /\
  (after = None ->
     snd (mu_string_split_at_char m s after c) = None /\
     snd (mu_string_split_by_pred m s after pred arg) = None /\
     snd (mu_string_split_by_not_pred m s after pred arg) = None).
Proof.
  unfold mu_string_split_at_char, mu_string_split_by_pred,
    mu_string_split_by_not_pred, mu_string_split_handle_result.
  split; [|split].
  - intros Hv. rewrite Hv. simpl. auto.
  - intros ->. simpl. rewrite orb_true_r. auto.
  - intros ->. repeat split;
      repeat match goal with
             | |- context [if ?b then _ else _] => destruct b
             end; reflexivity.
Qed.

Lemma split_invalid_witness :
  mu_string_split_by_pred test_mem (MU_STR_LITERAL 18 "abc")
    (Some MU_STRING_EMPTY) None NULL =
  (MU_STRING_INVALID, Some MU_STRING_INVALID).
Proof.
  destruct (split_invalid test_mem (MU_STR_LITERAL 18 "abc")
              (Some MU_STRING_EMPTY) "="%byte None NULL) as (_ & H & _).
  destruct (H eq_refl) as [H1 _]. exact H1.
Defined.

(* ------------------------------------------------------------------------- *)
(** ** What the trims return *)

(** The downward loop stops at the greatest index of its range that fails
    the test, or just below the range. *)
Lemma rskip_while_unique c lo i0 r :
  lo <= i0 + 1 -> lo - 1 <= r <= i0 ->
  (forall k, r < k <= i0 -> c k = true) -> (lo <= r -> c r = false) ->
  rskip_while c lo i0 = r.
Proof.
  intros Hlo Hr Hall Hstop.
  destruct (rskip_while_spec c lo i0 Hlo) as (Hr' & Hall' & Hstop').
  set (r' := rskip_while c lo i0) in *.
  destruct (Z.lt_trichotomy r' r) as [H|[H|H]]; auto.
  - rewrite Hall' in Hstop by lia. discriminate Hstop. lia.
  - rewrite Hall in Hstop' by lia. discriminate Hstop'. lia.
Qed.

Lemma skip_while_spec c n :
  0 <= n ->
  let st := skip_while c n in
  0 <= st <= n /\ (forall k, 0 <= k < st -> c k = true) /\ (st < n -> c st = false).
Proof.
  intros Hn st. unfold st, skip_while.
  pose proof (first_index_range (fun i => negb (c i)) n Hn) as Hr.
  split; [exact Hr|]. split.
  - intros k Hk. apply (first_index_before (fun i => negb (c i))) in Hk.
    now apply negb_false_iff in Hk.
  - intros Hlt.
    destruct (first_index_found (fun i => negb (c i)) n ltac:(lia)) as [_ H].
    now apply negb_true_iff in H.
Qed.

(** Within the range of [int] the downward loops start at the last index. *)
Lemma int_start_small n :
  1 <= n <= INT_MAX -> int_sub (to_int n) 1 = n - 1.
Proof.
  intros Hn. unfold int_sub. rewrite (to_int_small n) by size_lia.
  apply to_int_small. size_lia.
Qed.

Section TrimForms.

Variable m : mem.
Variable s : mu_string_t.
Variable p : byte -> ptr -> bool.
Variable arg : ptr.

Let c : Z -> bool := fun k => p (index m (buf s) k) arg.
Let st : Z := skip_while c (len s).

Hypothesis Hvalid : mu_string_is_valid s = true.
Hypothesis Hne : len s <> 0.

Lemma ltrim_form :
  size_ok (len s) ->
  mu_string_ltrim m s (Some p) arg =
    if st =? len s then MU_STRING_EMPTY
    else {| buf := ptr_add (buf s) st; len := len s - st |}.
Proof.
  intros Hs. unfold mu_string_ltrim. rewrite Hvalid.
  cbn [negb pred_is_null orb call].
  destruct (Z.eqb_spec (len s) 0); [contradiction|]. cbn [orb]. cbv zeta.
  fold c. fold st. destruct (Z.eqb_spec st (len s)); [reflexivity|].
  destruct (skip_while_spec c (len s) ltac:(size_lia)) as (Hr & _). fold st in Hr.
  unfold size_sub. now rewrite to_size_small by size_lia.
Qed.

Hypothesis Hint : 0 <= len s <= INT_MAX.

Let e0 : Z := rskip_while c 0 (len s - 1).

Lemma e0_spec :
  -1 <= e0 <= len s - 1 /\
  (forall k, e0 < k <= len s - 1 -> c k = true) /\
  (0 <= e0 -> c e0 = false).
Proof.
  pose proof (rskip_while_spec c 0 (len s - 1) ltac:(lia)) as H. simpl in H.
  fold e0 in H. destruct H as (A & B & C). repeat split; auto; lia.
Qed.

Lemma rtrim_form :
  mu_string_rtrim m s (Some p) arg =
    if e0 <? 0 then MU_STRING_EMPTY else {| buf := buf s; len := e0 + 1 |}.
Proof.
  unfold mu_string_rtrim. rewrite Hvalid.
  cbn [negb pred_is_null orb call].
  destruct (Z.eqb_spec (len s) 0); [contradiction|]. cbn [orb]. cbv zeta.
  rewrite int_start_small by lia. fold c. fold e0.
  destruct (Z.ltb_spec e0 0); [reflexivity|].
  destruct e0_spec as (Hr & _).
  unfold size_add. rewrite (to_size_small e0) by size_lia.
  now rewrite to_size_small by size_lia.
Qed.

(** The lower bound of the downward loop of [mu_string_trim] is never
    reached: the byte at the start index fails the test. *)
Lemma trim_end_index :
  st < len s -> rskip_while c st (len s - 1) = e0 /\ st <= e0.
Proof.
  intros Hst.
  destruct (skip_while_spec c (len s) ltac:(lia)) as (Hr & Hbefore & Hstop).
  fold st in Hr, Hbefore, Hstop. specialize (Hstop Hst).
  destruct e0_spec as (He & Hall & Hfail).
  assert (Hge : st <= e0).
  { destruct (Z.le_gt_cases st e0); auto.
    rewrite Hall in Hstop by lia. discriminate. }
  split; auto. apply rskip_while_unique; auto; try lia.
  intros _. apply Hfail. lia.
Qed.

Lemma trim_form :
  mu_string_trim m s (Some p) arg =
    if st =? len s then MU_STRING_EMPTY
    else {| buf := ptr_add (buf s) st; len := e0 - st + 1 |}.
Proof.
  destruct (Z.eqb_spec st (len s)) as [E|E].
  - unfold mu_string_trim. rewrite Hvalid.
    cbn [negb pred_is_null orb call].
    destruct (Z.eqb_spec (len s) 0); [contradiction|]. cbn [orb]. cbv zeta.
    fold c. fold st. now rewrite E, Z.eqb_refl.
  - destruct (skip_while_spec c (len s) ltac:(lia)) as (Hr & _). fold st in Hr.
    destruct (trim_end_index ltac:(lia)) as (He & Hge).
    destruct e0_spec as (Hr0 & _).
    rewrite (trim_steps m s p arg st e0 Hvalid Hne eq_refl E).
    + unfold size_add, size_sub. f_equal.
      rewrite (to_size_small e0) by size_lia.
      rewrite (to_size_small (e0 - st)) by size_lia.
      apply to_size_small. size_lia.
    + rewrite int_start_small, to_int_small by size_lia. exact He.
Qed.

End TrimForms.

Lemma ltrim_unchanged m s pred arg :
  mu_string_is_valid s = true -> len s = 0 \/ pred = None ->
  mu_string_ltrim m s pred arg = s.
Proof.
  intros Hv [H|H]; unfold mu_string_ltrim; rewrite Hv, H; simpl; auto.
  now rewrite orb_true_r.
Qed.

Lemma rtrim_unchanged m s pred arg :
  mu_string_is_valid s = true -> len s = 0 \/ pred = None ->
  mu_string_rtrim m s pred arg = s.
Proof.
  intros Hv [H|H]; unfold mu_string_rtrim; rewrite Hv, H; simpl; auto.
  now rewrite orb_true_r.
Qed.

Lemma tail_valid s i :
  mu_string_is_valid s = true -> len s <> 0 ->
  forall n, mu_string_is_valid {| buf := ptr_add (buf s) i; len := n |} = true.
Proof.
  intros Hv Hne n. apply valid_nonnull. simpl.
  apply ptr_add_nonnull. now apply valid_nonempty_buf.
Qed.

Lemma head_valid s :
  mu_string_is_valid s = true -> len s <> 0 ->
  forall n, mu_string_is_valid {| buf := buf s; len := n |} = true.
Proof. intros Hv Hne n. apply valid_nonnull. simpl. now apply valid_nonempty_buf. Qed.

(** X17: [mu_string_ltrim] with a non-null predicate removes the longest
    prefix of bytes the predicate accepts: every removed byte is accepted,
    the first byte of the result is rejected, and a subject accepted as a
    whole gives the Empty view (an empty subject is returned as it is). *)
Theorem ltrim_spec m s p arg :
  mu_string_is_valid s = true -> size_ok (len s) ->
  exists st,
    0 <= st <= len s /\
    (forall k, 0 <= k < st -> p (index m (buf s) k) arg = true) /\
    (st < len s ->
       p (index m (buf s) st) arg = false /\
       mu_string_ltrim m s (Some p) arg =
         {| buf := ptr_add (buf s) st; len := len s - st |}) /\
    (st = len s ->
       mu_string_ltrim m s (Some p) arg =
         if len s =? 0 then s else MU_STRING_EMPTY).
Proof.
  intros Hv Hs.
  set (c := fun k => p (index m (buf s) k) arg).
  destruct (skip_while_spec c (len s) ltac:(size_lia)) as (Hr & Hbefore & Hstop).
  exists (skip_while c (len s)).
  split; [exact Hr|]. split; [exact Hbefore|]. split.
  - intros Hlt. split; [now apply Hstop|].
    rewrite (ltrim_form m s p arg Hv ltac:(lia) Hs). fold c.
    destruct (Z.eqb_spec (skip_while c (len s)) (len s)); [lia | reflexivity].
  - intros E. destruct (Z.eqb_spec (len s) 0) as [E0|E0].
    + apply ltrim_unchanged; auto.
    + rewrite (ltrim_form m s p arg Hv E0 Hs). fold c. now rewrite E, Z.eqb_refl.
Qed.

Lemma ltrim_spec_witness :
  exists st,
    0 <= st <= 9 /\
    (forall k, 0 <= k < st ->
       is_dot_pred (index test_mem (Ptr 17 0) k) NULL = true) /\
    (st < 9 ->
       is_dot_pred (index test_mem (Ptr 17 0) st) NULL = false /\
       mu_string_ltrim test_mem (MU_STR_LITERAL 17 "...abc...") (Some is_dot_pred) NULL =
         {| buf := ptr_add (Ptr 17 0) st; len := 9 - st |}) /\
    (st = 9 ->
       mu_string_ltrim test_mem (MU_STR_LITERAL 17 "...abc...") (Some is_dot_pred) NULL =
         MU_STR_LITERAL 17 "...abc...").
Proof.
  assert (Hs : size_ok (len (MU_STR_LITERAL 17 "...abc...")))
    by (unfold size_ok, SIZE_MAX; simpl; lia).
  destruct (ltrim_spec test_mem (MU_STR_LITERAL 17 "...abc...") is_dot_pred NULL
              eq_refl Hs) as (st & H1 & H2 & H3 & H4).
  exists st. simpl in *. repeat split; auto; try lia.
  - now apply H3.
  - now apply H3.
  - intros E. destruct (Z.eq_dec st 9) as [E9|]; [|contradiction].
    pose proof (H2 3 ltac:(lia)) as Hc. discriminate Hc.
Defined.

(** X18: for a subject of at most [INT_MAX] bytes, [mu_string_rtrim] with a
    non-null predicate removes the longest suffix of bytes the predicate
    accepts and keeps the buffer of the subject. *)
Theorem rtrim_spec m s p arg :
  mu_string_is_valid s = true -> 0 <= len s <= INT_MAX ->
  exists n,
    0 <= n <= len s /\
    (forall k, n <= k < len s -> p (index m (buf s) k) arg = true) /\
    (0 < n ->
       p (index m (buf s) (n - 1)) arg = false /\
       mu_string_rtrim m s (Some p) arg = {| buf := buf s; len := n |}) /\
    (n = 0 ->
       mu_string_rtrim m s (Some p) arg =
         if len s =? 0 then s else MU_STRING_EMPTY).
Proof.
  intros Hv Hs.
  destruct (Z.eq_dec (len s) 0) as [E0|E0].
  - exists 0. split; [lia|]. split; [intros k Hk; lia|]. split; [lia|].
    intros _. rewrite E0. simpl. apply rtrim_unchanged; auto.
  - destruct (e0_spec m s p arg E0 Hs) as (Hr & Hall & Hfail).
    set (e := rskip_while (fun k => p (index m (buf s) k) arg) 0 (len s - 1)) in *.
    exists (e + 1). split; [lia|]. split; [|split].
    + intros k Hk. apply Hall. lia.
    + intros Hn. split.
      * replace (e + 1 - 1) with e by lia. apply Hfail. lia.
      * rewrite (rtrim_form m s p arg Hv E0 Hs). fold e.
        destruct (Z.ltb_spec e 0); [lia | reflexivity].
    + intros E. rewrite (rtrim_form m s p arg Hv E0 Hs). fold e.
      destruct (Z.ltb_spec e 0); [|lia].
      destruct (Z.eqb_spec (len s) 0); [contradiction | reflexivity].
Qed.

Lemma rtrim_spec_witness :
  exists n,
    0 <= n <= 9 /\
    (0 < n ->
       mu_string_rtrim test_mem (MU_STR_LITERAL 17 "...abc...") (Some is_dot_pred) NULL =
         {| buf := Ptr 17 0; len := n |}).
Proof.
  destruct (rtrim_spec test_mem (MU_STR_LITERAL 17 "...abc...") is_dot_pred NULL
              eq_refl ltac:(unfold INT_MAX; simpl; lia)) as (n & H1 & _ & H3 & _).
  exists n. simpl in *. split; [exact H1|]. intros Hn. now apply H3.
Defined.

(** X19: [mu_string_ltrim] is idempotent for every view and predicate, and
    [mu_string_rtrim] is idempotent for every view of at most [INT_MAX]
    bytes. *)
Theorem ltrim_rtrim_idempotent m s pred arg :
  size_ok (len s) ->
  mu_string_ltrim m (mu_string_ltrim m s pred arg) pred arg =
    mu_string_ltrim m s pred arg /\
  (len s <= INT_MAX ->
   mu_string_rtrim m (mu_string_rtrim m s pred arg) pred arg =
     mu_string_rtrim m s pred arg).
Proof.
  intros Hs.
  destruct (mu_string_is_valid s) eqn:Hv.
  2:{ unfold mu_string_ltrim, mu_string_rtrim. rewrite Hv. simpl. auto. }
  destruct (Z.eq_dec (len s) 0) as [E0|E0].
  { rewrite !(ltrim_unchanged m s), !(rtrim_unchanged m s) by auto. auto. }
  destruct pred as [p|].
  2:{ rewrite !(ltrim_unchanged m s), !(rtrim_unchanged m s) by auto. auto. }
  set (c := fun k => p (index m (buf s) k) arg).
  split.
  - destruct (skip_while_spec c (len s) ltac:(size_lia)) as (Hr & _ & Hstop).
    rewrite (ltrim_form m s p arg Hv E0 Hs). fold c.
    destruct (Z.eqb_spec (skip_while c (len s)) (len s)) as [E|E]; [reflexivity|].
    set (st := skip_while c (len s)) in *.
    rewrite ltrim_form.
    + simpl.
      rewrite (skip_while_stops _ (len s - st) 0); try lia.
      * destruct (Z.eqb_spec 0 (len s - st)); [lia|].
        rewrite ptr_add_add, Z.add_0_r, Z.sub_0_r. reflexivity.
      * rewrite index_add, Z.add_0_r. apply Hstop. lia.
    + now apply tail_valid.
    + simpl. lia.
    + simpl. size_lia.
  - intros Hint.
    assert (Hi : 0 <= len s <= INT_MAX) by size_lia.
    destruct (e0_spec m s p arg E0 Hi) as (Hr & _ & Hfail).
    rewrite (rtrim_form m s p arg Hv E0 Hi).
    set (e := rskip_while (fun k => p (index m (buf s) k) arg) 0 (len s - 1)) in *.
    destruct (Z.ltb_spec e 0); [reflexivity|].
    rewrite rtrim_form.
    + simpl. replace (e + 1 - 1) with e by lia.
      rewrite rskip_while_stop by (apply Hfail; lia).
      destruct (Z.ltb_spec e 0); [lia | reflexivity].
    + now apply head_valid.
    + simpl. lia.
    + simpl. lia.
Qed.

Lemma ltrim_rtrim_idempotent_witness :
  mu_string_ltrim test_mem
    (mu_string_ltrim test_mem (MU_STR_LITERAL 15 "  hello world   ")
       (Some is_whitespace_pred) NULL)
    (Some is_whitespace_pred) NULL =
  mu_string_ltrim test_mem (MU_STR_LITERAL 15 "  hello world   ")
    (Some is_whitespace_pred) NULL.
Proof.
  apply (ltrim_rtrim_idempotent test_mem (MU_STR_LITERAL 15 "  hello world   ")
           (Some is_whitespace_pred) NULL).
  unfold size_ok, SIZE_MAX. simpl. lia.
Defined.

(** X20: for a view of at most [INT_MAX] bytes, trimming both ends at once
    is trimming one end and then the other, in either order. *)
Theorem trim_is_ltrim_then_rtrim m s pred arg :
  0 <= len s <= INT_MAX ->
  mu_string_rtrim m (mu_string_ltrim m s pred arg) pred arg =
    mu_string_trim m s pred arg /\
  mu_string_ltrim m (mu_string_rtrim m s pred arg) pred arg =
    mu_string_trim m s pred arg.
Proof.
  intros Hi.
  destruct (mu_string_is_valid s) eqn:Hv.
  2:{ unfold mu_string_ltrim, mu_string_rtrim, mu_string_trim.
      rewrite Hv. simpl. auto. }
  destruct (Z.eq_dec (len s) 0) as [E0|E0].
  { rewrite !(ltrim_unchanged m s), !(rtrim_unchanged m s), !(trim_unchanged m s)
      by auto.
    rewrite !(ltrim_unchanged m s) by auto. auto. }
  destruct pred as [p|].
  2:{ rewrite !(ltrim_unchanged m s), !(rtrim_unchanged m s), !(trim_unchanged m s)
        by auto.
      rewrite !(ltrim_unchanged m s) by auto. auto. }
  assert (Hs : size_ok (len s)) by size_lia.
  pose proof (skip_while_spec (fun k => p (index m (buf s) k) arg) (len s)
                ltac:(lia)) as Hsk.
  cbv beta zeta in Hsk. destruct Hsk as (Hr & Hbefore & Hstop).
  destruct (e0_spec m s p arg E0 Hi) as (Hr0 & Hall & Hfail).
  pose proof (trim_end_index m s p arg E0 Hi) as Hend.
  rewrite (trim_form m s p arg Hv E0 Hi), (ltrim_form m s p arg Hv E0 Hs),
    (rtrim_form m s p arg Hv E0 Hi).
  set (st := skip_while _ (len s)) in *.
  set (e := rskip_while _ 0 (len s - 1)) in *.
  destruct (Z.eqb_spec st (len s)) as [E|E].
  - split; [reflexivity|].
    destruct (Z.ltb_spec e 0); [reflexivity|].
    rewrite Hbefore in Hfail by lia. discriminate Hfail. lia.
  - destruct (Hend ltac:(lia)) as (_ & Hge). split.
    + rewrite rtrim_form.
      * simpl.
        rewrite (rskip_while_unique _ 0 (len s - st - 1) (e - st)); try lia.
        -- destruct (Z.ltb_spec (e - st) 0); [lia | reflexivity].
        -- intros k Hk. rewrite index_add. apply Hall. lia.
        -- intros _. rewrite index_add.
           replace (st + (e - st)) with e by lia. apply Hfail. lia.
      * now apply tail_valid.
      * simpl. lia.
      * simpl. size_lia.
    + destruct (Z.ltb_spec e 0); [lia|].
      rewrite ltrim_form.
      * simpl. rewrite (skip_while_stops _ (e + 1) st); try lia.
        -- destruct (Z.eqb_spec st (e + 1)); [lia|]. f_equal. lia.
        -- apply Hstop. lia.
        -- exact Hbefore.
      * now apply head_valid.
      * simpl. lia.
      * simpl. size_lia.
Qed.

Lemma trim_is_ltrim_then_rtrim_witness :
  mu_string_rtrim test_mem
    (mu_string_ltrim test_mem (MU_STR_LITERAL 15 "  hello world   ")
       (Some is_whitespace_pred) NULL)
    (Some is_whitespace_pred) NULL =
  mu_string_trim test_mem (MU_STR_LITERAL 15 "  hello world   ")
    (Some is_whitespace_pred) NULL.
Proof.
  apply (trim_is_ltrim_then_rtrim test_mem (MU_STR_LITERAL 15 "  hello world   ")
           (Some is_whitespace_pred) NULL).
  unfold INT_MAX. simpl. lia.
Defined.

(* ------------------------------------------------------------------------- *)
(** ** Copying *)

(** X21: [mu_string_copy] answers Invalid and leaves memory alone when the
    destination buffer is null or the source is not valid.  Otherwise it
    writes the first [min(src.len, dst.len)] bytes of the source at the start
    of the destination, changes no other byte, and returns the valid view of
    exactly the bytes written. *)
Theorem copy_spec m dst src :
  size_ok (mut_len dst) -> size_ok (len src) ->
  let written := Z.min (len src) (mut_len dst) in
  let r := mu_string_copy m dst src in
  (mut_buf dst = NULL \/ mu_string_is_valid src = false ->
     r = (m, MU_STRING_INVALID)) /\
  (mut_buf dst <> NULL -> mu_string_is_valid src = true ->
     snd r = {| buf := mut_buf dst; len := written |} /\
     mu_string_is_valid (snd r) = true /\
     (forall i, 0 <= i < written ->
        index (fst r) (mut_buf dst) i = index m (buf src) i) /\
     (forall b a,
        (forall i, 0 <= i < written -> ptr_add (mut_buf dst) i <> Ptr b a) ->
        fst r b a = m b a)).
Proof.
  intros Hcap Hlen written r. split.
  - intros [H|H]; unfold r, mu_string_copy; rewrite H; simpl; auto.
    now rewrite orb_true_r.
  - intros Hbuf Hv. unfold r, mu_string_copy.
    destruct dst as [[|b ofs] cap]; [contradiction|]. simpl in *.
    rewrite Hv. simpl.
    assert (Hn : (if len src <? cap then len src else cap) = written).
    { unfold written. destruct (Z.ltb_spec (len src) cap); lia. }
    rewrite Hn. repeat split.
    + intros i Hi. destruct (Z.ltb_spec 0 written); [|lia].
      unfold index at 1. simpl. now apply memcpy_inside.
    + intros b' a Hout. destruct (Z.ltb_spec 0 written); auto.
      apply memcpy_outside. intros [-> Ha].
      apply (Hout (a - ofs)); [lia|]. f_equal. lia.
Qed.

Lemma copy_spec_witness :
  snd (mu_string_copy test_mem {| mut_buf := Ptr 2 0; mut_len := 3 |}
         (MU_STR_LITERAL 19 "too_long")) = {| buf := Ptr 2 0; len := 3 |}.
Proof.
  pose proof (copy_spec test_mem {| mut_buf := Ptr 2 0; mut_len := 3 |}
                (MU_STR_LITERAL 19 "too_long")) as H.
  simpl in H. unfold size_ok, SIZE_MAX in H.
  destruct (H ltac:(lia) ltac:(lia)) as (_ & H1).
  destruct (H1 ltac:(discriminate) eq_refl) as (H2 & _).
  exact H2.
Defined.

(** X22: read back from the memory it leaves, the view that
    [mu_string_copy] returns is a prefix of the source, and it is equal to
    the source when the source fits the destination; the source must share
    no byte with the part of the destination that is written. *)
Theorem copy_round_trip m b ofs cap src :
  size_ok cap -> mu_string_is_valid src = true -> size_ok (len src) ->
  apart_from b ofs (Z.min (len src) cap) src = true ->
  let r := mu_string_copy m {| mut_buf := Ptr b ofs; mut_len := cap |} src in
  mu_string_starts_with (fst r) src (snd r) = true /\
  (len src <= cap -> mu_string_eq (fst r) (snd r) src = true).
Proof.
  intros Hcap Hv Hlen Hapart r.
  set (n := Z.min (len src) cap) in *.
  destruct (copy_spec m {| mut_buf := Ptr b ofs; mut_len := cap |} src Hcap Hlen)
    as (_ & H).
  destruct (H ltac:(discriminate) Hv) as (Hr & Hvr & Hin & Hout).
  fold r in Hr, Hvr, Hin, Hout. simpl in Hr, Hin, Hout. fold n in Hr, Hin, Hout.
  assert (Hsrc : forall j, 0 <= j < n ->
                   index (fst r) (buf src) j = index m (buf src) j).
  { intros j Hj. unfold index, apart_from in *.
    destruct (buf src) as [|vb vofs]; simpl; auto.
    apply Hout. intros i Hi [= -> E].
    rewrite !orb_true_iff, !Z.leb_le, Z.eqb_eq, negb_true_iff in Hapart.
    destruct Hapart as [[[A|A]|A]|A]; try size_lia.
    rewrite Pos.eqb_refl in A. discriminate. }
  assert (Hsw : mu_string_starts_with (fst r) src (snd r) = true).
  { rewrite Hr. apply starts_with_iff; simpl; try size_lia.
    split; [exact Hv|]. split; [reflexivity|]. split; [lia|].
    intros j Hj. rewrite Hsrc by exact Hj. symmetry. now apply Hin. }
  split; [exact Hsw|]. intros Hfit.
  rewrite eq_symmetric.
  apply (proj2 (eq_valid_iff (fst r) src (snd r) Hv Hvr ltac:(size_lia))).
  apply starts_with_iff in Hsw; [|size_lia | rewrite Hr; simpl; size_lia].
  destruct Hsw as (_ & _ & _ & Hbytes).
  assert (Hlr : len (snd r) = len src) by (rewrite Hr; simpl; lia).
  split; [now rewrite Hlr|].
  unfold view_bytes. rewrite Hlr. apply read_bytes_ext.
  intros i Hi. rewrite Z2Nat.id in Hi by size_lia. apply Hbytes. lia.
Qed.

Lemma copy_round_trip_witness :
  let r := mu_string_copy test_mem {| mut_buf := Ptr 2 0; mut_len := 100 |}
             (MU_STR_LITERAL 16 "hello world") in
  mu_string_eq (fst r) (snd r) (MU_STR_LITERAL 16 "hello world") = true.
Proof.
  intros r.
  assert (Hcap : size_ok 100) by (unfold size_ok, SIZE_MAX; lia).
  assert (Hlen : size_ok (len (MU_STR_LITERAL 16 "hello world")))
    by (unfold size_ok, SIZE_MAX; simpl; lia).
  destruct (copy_round_trip test_mem 2 0 100 (MU_STR_LITERAL 16 "hello world")
              Hcap eq_refl Hlen eq_refl) as (_ & H).
  apply H. simpl. lia.
Defined.

(** An append writes what a copy into the same segment writes, and
    returns the segment moved on by the length of the view the copy
    returns. *)
Theorem append_is_copy_then_advance m segment src :
  mut_buf segment <> NULL -> mu_string_is_valid src = true -> len src <> 0 ->
  let c := mu_string_copy m segment src in
  mu_string_append m segment src =
    (fst c, {| mut_buf := ptr_add (mut_buf segment) (len (snd c));
               mut_len := size_sub (mut_len segment) (len (snd c)) |}).
Proof.
  intros Hbuf Hv Hne. unfold mu_string_append, mu_string_copy.
  destruct (mut_buf segment) eqn:E; [contradiction|]. rewrite Hv. simpl.
  destruct (Z.eqb_spec (len src) 0); [contradiction | reflexivity].
Qed.

Lemma append_is_copy_then_advance_witness :
  mu_string_append test_mem {| mut_buf := Ptr 2 0; mut_len := 100 |}
    (MU_STR_LITERAL 18 "abc") =
  (fst (mu_string_copy test_mem {| mut_buf := Ptr 2 0; mut_len := 100 |}
          (MU_STR_LITERAL 18 "abc")),
   {| mut_buf := Ptr 2 3; mut_len := 97 |}).
Proof.
  apply (append_is_copy_then_advance test_mem
           {| mut_buf := Ptr 2 0; mut_len := 100 |} (MU_STR_LITERAL 18 "abc")).
  - discriminate.
  - reflexivity.
  - discriminate.
Defined.

(* ------------------------------------------------------------------------- *)
(** ** Construction and access *)

(** X23: the view [mu_string_from_cstr] makes of a non-null C string starts
    at the string, has as its length the index of the first NUL byte, so
    that it holds no NUL byte, and is valid. *)
Theorem from_cstr_length m cstr n :
  cstr <> NULL -> 0 <= n < SIZE_MAX ->
  index m cstr n = x00 ->
  (forall k, 0 <= k < n -> index m cstr k <> x00) ->
  mu_string_from_cstr m cstr = {| buf := cstr; len := n |} /\
  mu_string_is_valid (mu_string_from_cstr m cstr) = true /\
  mu_string_len (mu_string_from_cstr m cstr) = n.
Proof.
  intros Hp Hn Hnul Hfirst.
  assert (E : mu_string_from_cstr m cstr = {| buf := cstr; len := n |}).
  { unfold mu_string_from_cstr, strlen.
    destruct cstr; [contradiction|]. simpl. f_equal.
    apply first_index_least; auto.
    - now rewrite Hnul.
    - intros k Hk. apply eqb_neq. now apply Hfirst. }
  rewrite E. split; [reflexivity|].
  assert (Hv : mu_string_is_valid {| buf := cstr; len := n |} = true)
    by now apply valid_nonnull.
  split; [exact Hv|]. unfold mu_string_len. now rewrite Hv.
Qed.

Lemma from_cstr_length_witness :
  mu_string_from_cstr test_mem (Ptr 18 0) = {| buf := Ptr 18 0; len := 3 |}.
Proof.
  apply (from_cstr_length test_mem (Ptr 18 0) 3).
  - discriminate.
  - unfold SIZE_MAX. lia.
  - reflexivity.
  - intros k Hk. each_index k 3%nat; discriminate.
Defined.

(** X24: [mu_string_from_buf] rejects exactly a null buffer with a positive
    length.  The view it returns otherwise is valid and has the given
    length; it counts as empty exactly when that length is 0, and
    [mu_string_buf] hands out its buffer exactly when it is not empty.  For
    the rejected pair the accessors answer [SIZE_MAX], not empty, and the
    null pointer. *)
Theorem from_buf_accessors b n :
  size_ok n ->
  let s := mu_string_from_buf b n in
  (b = NULL -> 0 < n ->
     s = MU_STRING_INVALID /\ mu_string_is_valid s = false /\
     mu_string_len s = SIZE_MAX /\ mu_string_is_empty s = false /\
     mu_string_buf s = NULL) /\
  (b <> NULL \/ n = 0 ->
     mu_string_is_valid s = true /\ mu_string_len s = n /\
     mu_string_is_empty s = (n =? 0) /\
     mu_string_buf s = (if n =? 0 then NULL else b)).
Proof.
  intros Hn s. unfold s, mu_string_from_buf. split.
  - intros -> Hpos. simpl. destruct (Z.ltb_spec 0 n); [|lia]. repeat split.
  - intros [Hb| ->].
    + destruct b; [contradiction|]. simpl.
      unfold mu_string_len, mu_string_is_empty, mu_string_buf, mu_string_is_valid.
      simpl. repeat split.
    + destruct b; simpl; repeat split.
Qed.

Lemma from_buf_accessors_witness :
  mu_string_from_buf NULL 5 = MU_STRING_INVALID /\
  mu_string_len (mu_string_from_buf (Ptr 16 0) 5) = 5.
Proof.
  assert (Hn : size_ok 5) by (unfold size_ok, SIZE_MAX; lia).
  split.
  - destruct (from_buf_accessors NULL 5 Hn) as (H & _).
    apply H; [reflexivity | lia].
  - destruct (from_buf_accessors (Ptr 16 0) 5 Hn) as (_ & H).
    apply H. left. discriminate.
Defined.

(* ------------------------------------------------------------------------- *)
(** ** Slices of views that an [int] can index *)

Lemma clamp_index_inside L a :
  0 <= L <= INT_MAX -> 0 <= a <= L -> clamp_index L a = a.
Proof.
  intros HL Ha. rewrite clamp_index_spec by size_lia.
  unfold spec_normalize_index. destruct (Z.ltb_spec a 0); lia.
Qed.

Lemma clamp_index_end L :
  0 <= L <= INT_MAX -> clamp_index L MU_STRING_END = L.
Proof.
  intros HL. rewrite clamp_index_spec by (unfold MU_STRING_END; size_lia).
  unfold spec_normalize_index, MU_STRING_END, INT_MAX in *. simpl. lia.
Qed.

Lemma clamp_index_from_end L :
  0 <= L <= INT_MAX -> clamp_index L (- L) = 0.
Proof.
  intros HL. rewrite clamp_index_spec by size_lia.
  unfold spec_normalize_index. destruct (Z.ltb_spec (- L) 0); lia.
Qed.

(** The slice between two clamped indices. *)
Lemma slice_form s start end_ :
  mu_string_is_valid s = true -> 0 <= len s <= INT_MAX ->
  0 <= clamp_index (len s) start <= len s ->
  0 <= clamp_index (len s) end_ <= len s ->
  mu_string_slice s start end_ =
    if clamp_index (len s) end_ <=? clamp_index (len s) start then MU_STRING_EMPTY
    else {| buf := ptr_add (buf s) (clamp_index (len s) start);
            len := clamp_index (len s) end_ - clamp_index (len s) start |}.
Proof.
  intros Hv HL Ha Hb. unfold mu_string_slice. rewrite Hv. simpl.
  destruct (Z.eqb_spec (len s) 0) as [E|E].
  - destruct (Z.leb_spec (clamp_index (len s) end_) (clamp_index (len s) start));
      [reflexivity | lia].
  - destruct (Z.leb_spec (clamp_index (len s) end_) (clamp_index (len s) start));
      [reflexivity|].
    unfold size_sub. now rewrite to_size_small by size_lia.
Qed.

Lemma view_bytes_empty m : view_bytes m MU_STRING_EMPTY = [].
Proof. reflexivity. Qed.

(** X25: cutting a view of at most [INT_MAX] bytes at an index [k] with two
    slices, from 0 to [k] and from [k] to [MU_STRING_END], loses nothing: the
    bytes of the two slices put together are the bytes of the view. *)
Theorem slice_split_round_trip m s k :
  mu_string_is_valid s = true -> 0 <= len s <= INT_MAX -> 0 <= k <= len s ->
  view_bytes m (mu_string_slice s 0 k) ++
  view_bytes m (mu_string_slice s k MU_STRING_END) = view_bytes m s /\
  len (mu_string_slice s 0 k) + len (mu_string_slice s k MU_STRING_END) = len s.
Proof.
  intros Hv HL Hk.
  rewrite (slice_form s 0 k), (slice_form s k MU_STRING_END); auto;
    rewrite ?clamp_index_end, ?clamp_index_inside by lia; try lia.
  destruct (Z.leb_spec k 0), (Z.leb_spec (len s) k); simpl.
  - split; [|lia]. unfold view_bytes.
    replace (len s) with 0 by lia. reflexivity.
  - assert (k = 0) by lia. subst k. split; [|lia].
    unfold view_bytes. simpl. rewrite ptr_add_0, Z.sub_0_r. reflexivity.
  - assert (k = len s) by lia. subst k. split; [|lia].
    unfold view_bytes. simpl. rewrite ptr_add_0, Z.sub_0_r, app_nil_r. reflexivity.
  - split; [|lia]. unfold view_bytes. simpl.
    rewrite ptr_add_0, Z.sub_0_r. apply read_bytes_split. lia.
Qed.

Lemma slice_split_round_trip_witness :
  view_bytes test_mem (mu_string_slice (MU_STR_LITERAL 13 "abcdefgh") 0 3) ++
  view_bytes test_mem (mu_string_slice (MU_STR_LITERAL 13 "abcdefgh") 3 MU_STRING_END)
  = view_bytes test_mem (MU_STR_LITERAL 13 "abcdefgh").
Proof.
  apply (slice_split_round_trip test_mem (MU_STR_LITERAL 13 "abcdefgh") 3 eq_refl).
  - unfold INT_MAX. simpl. lia.
  - simpl. lia.
Defined.

(** X26: the slice of a non-empty view of at most [INT_MAX] bytes from 0, or
    from minus its length, to [MU_STRING_END] is the view itself; the slice
    of an empty valid view is the canonical Empty view, whatever buffer the
    view had. *)
Theorem slice_whole s :
  mu_string_is_valid s = true -> 0 <= len s <= INT_MAX ->
  mu_string_slice s 0 MU_STRING_END = (if len s =? 0 then MU_STRING_EMPTY else s) /\
  mu_string_slice s (- len s) MU_STRING_END =
    (if len s =? 0 then MU_STRING_EMPTY else s).
Proof.
  intros Hv HL.
  rewrite (slice_form s 0 MU_STRING_END), (slice_form s (- len s) MU_STRING_END);
    auto;
    rewrite ?clamp_index_end, ?clamp_index_from_end, ?clamp_index_inside by lia;
    try lia.
  rewrite ptr_add_0, Z.sub_0_r.
  destruct (Z.eqb_spec (len s) 0) as [E|E], (Z.leb_spec (len s) 0); try lia; auto.
  destruct s; auto.
Qed.

Lemma slice_whole_witness :
  mu_string_slice (MU_STR_LITERAL 13 "abcdefgh") 0 MU_STRING_END =
  MU_STR_LITERAL 13 "abcdefgh".
Proof.
  apply (slice_whole (MU_STR_LITERAL 13 "abcdefgh") eq_refl).
  unfold INT_MAX. simpl. lia.
Defined.

(** X27: slices compose.  For a view of at most [INT_MAX] bytes and indices
    [0 <= a <= b <= len] and [0 <= c <= d <= b - a], the slice from [c] to
    [d] of the slice from [a] to [b] is the slice from [a + c] to [a + d]
    of the view. *)
Theorem slice_of_slice s a b c d :
  mu_string_is_valid s = true -> 0 <= len s <= INT_MAX ->
  0 <= a <= b -> b <= len s -> 0 <= c <= d -> d <= b - a ->
  mu_string_slice (mu_string_slice s a b) c d = mu_string_slice s (a + c) (a + d).
Proof.
  intros Hv HL Hab Hb Hcd Hd.
  rewrite (slice_form s a b), (slice_form s (a + c) (a + d)); auto;
    rewrite ?clamp_index_inside by lia; try lia.
  destruct (Z.leb_spec b a).
  - assert (c = 0 /\ d = 0) as [-> ->] by lia.
    rewrite Z.add_0_r, Z.leb_refl. reflexivity.
  - assert (Hne : len s <> 0) by lia.
    rewrite slice_form; simpl;
      rewrite ?clamp_index_inside by lia; try lia.
    + destruct (Z.leb_spec d c), (Z.leb_spec (a + d) (a + c)); try lia; auto.
      rewrite ptr_add_add. f_equal. lia.
    + now apply tail_valid.
Qed.

Lemma slice_of_slice_witness :
  mu_string_slice (mu_string_slice (MU_STR_LITERAL 13 "abcdefgh") 2 6) 1 3 =
  mu_string_slice (MU_STR_LITERAL 13 "abcdefgh") 3 5.
Proof.
  apply (slice_of_slice (MU_STR_LITERAL 13 "abcdefgh") 2 6 1 3 eq_refl);
    unfold INT_MAX; simpl; lia.
Defined.

(* ------------------------------------------------------------------------- *)
(** ** Equality is an equivalence *)

(** X28: [mu_string_eq] is transitive over all views, valid or not; with
    reflexivity and symmetry it is an equivalence relation. *)
Theorem eq_transitive m s1 s2 s3 :
  mu_string_eq m s1 s2 = true -> mu_string_eq m s2 s3 = true ->
  mu_string_eq m s1 s3 = true.
Proof.
  unfold mu_string_eq.
  destruct (mu_string_is_valid s1), (mu_string_is_valid s2),
    (mu_string_is_valid s3); simpl; try discriminate; auto.
  destruct (Z.eqb_spec (len s1) (len s2)) as [E12|]; [|discriminate].
  destruct (Z.eqb_spec (len s2) (len s3)) as [E23|]; [|intros _; discriminate].
  simpl. rewrite <- E23, <- E12, Z.eqb_refl. simpl.
  destruct (len s1 =? 0); auto.
  rewrite !Z.eqb_eq. unfold memcmp. rewrite !memcmp_from_zero_iff.
  intros H12 H23 k Hk. rewrite H12 by exact Hk. now apply H23.
Qed.

Lemma eq_transitive_witness :
  mu_string_eq test_mem (MU_STR_LITERAL 14 "cdef")
    (mu_string_slice (MU_STR_LITERAL 13 "abcdefgh") (-6) (-2)) = true.
Proof.
  apply (eq_transitive test_mem (MU_STR_LITERAL 14 "cdef")
           (mu_string_slice (MU_STR_LITERAL 13 "abcdefgh") 2 6)
           (mu_string_slice (MU_STR_LITERAL 13 "abcdefgh") (-6) (-2)));
    reflexivity.
Defined.
